(** * jax_demo: the two notebooks, over real arithmetic

    The repository is two notebooks.  Every cell is glue around the array
    library: [nn_features.ipynb] defines [f], [sqrt], [predict], [loss] and
    three loops (the Taylor accumulation, full-batch and mini-batch gradient
    descent), each regression loop being followed by a p-value computation.

    Numbers are mathematical reals ([R]): the array operations ([jnp.dot],
    [jnp.mean], [jnp.linalg.norm], ...) are taken at their documented
    mathematical meaning and rounding is not modelled.  The cell that
    compares three inner products with [==] is the exception: its values
    are reals extended with the infinities and NaN of float32, since what
    the comparison answers depends on them.  What the notebook
    consumes without defining it ([jax.grad], [jax.random],
    [jnp.linalg.eigh], [norm.cdf]) enters the cells through interfaces; the
    statements hold for every implementation of them, under the part of
    their contract that is spelled out as a hypothesis.  The concrete runs
    use the derivative for [grad], the normal distribution function for
    [norm.cdf], a seeded index generator and explicit eigendecompositions.

    The file has two parts: all definitions, then all facts. *)

From Stdlib Require Import Reals Lra Lia List Bool Arith ZArith.
From Stdlib Require Import ClassicalDescription IndefiniteDescription.
Import ListNotations.
Open Scope R_scope.

(* ################################################################## *)
(** * Part I: definitions *)
(* ################################################################## *)

(* ================================================================== *)
(** ** Results of Python code that can raise *)
(* ================================================================== *)

(** [IndexError] is what indexing an array without entries raises,
    [ShapeError] stands for the [ValueError] or [TypeError] the array
    library raises on incompatible shapes, [AssertionError] is a failed
    [assert], and
    [NumericalInstability] is the error the specification asks for on
    non-positive eigenvalues. *)
Inductive exn : Type :=
| IndexError
| ShapeError
| AssertionError
| NumericalInstability.

Inductive outcome (A : Type) : Type :=
| Returned (a : A)
| Raised (e : exn).
Arguments Returned {A} a.
Arguments Raised {A} e.

Definition bind {A B} (m : outcome A) (k : A -> outcome B) : outcome B :=
  match m with
  | Returned a => k a
  | Raised e => Raised e
  end.

Notation "x <- m ;; k" := (bind m (fun x => k))
  (at level 61, m at next level, right associativity).

(* ================================================================== *)
(** ** float32 values with their infinities and NaN *)
(* ================================================================== *)

Module Float32.

(** A value of a float32 array: a real, an infinity with its sign, or NaN.
    Rounding inside the range is not modelled.  An operation whose exact
    result has a magnitude of at least [2^128 - 2^103], half a unit beyond
    the largest float32, overflows to an infinity. *)
Inductive t : Type :=
| Fin (r : R)
| Inf (negative : bool)
| NaN.

Definition overflow_threshold : R := 2 ^ 128 - 2 ^ 103.

Definition negative (r : R) : bool := if Rlt_dec r 0 then true else false.

(** The value an operation returns when its exact result is [r]. *)
Definition of_real (r : R) : t :=
  if Rle_dec overflow_threshold (Rabs r) then Inf (negative r) else Fin r.

(** [x * y]: zero times an infinity is NaN. *)
Definition mul (x y : t) : t :=
  match x, y with
  | NaN, _ | _, NaN => NaN
  | Fin a, Fin c => of_real (a * c)
  | Inf s, Inf s' => Inf (xorb s s')
  | Inf s, Fin c | Fin c, Inf s =>
      if Req_EM_T c 0 then NaN else Inf (xorb s (negative c))
  end.

(** [x + y]: the sum of the two infinities of opposite signs is NaN. *)
Definition add (x y : t) : t :=
  match x, y with
  | NaN, _ | _, NaN => NaN
  | Fin a, Fin c => of_real (a + c)
  | Inf s, Inf s' => if Bool.eqb s s' then Inf s else NaN
  | Inf s, Fin _ | Fin _, Inf s => Inf s
  end.

(** [x == y]: NaN is equal to nothing, itself included. *)
Definition eqb (x y : t) : bool :=
  match x, y with
  | Fin a, Fin c => if Req_EM_T a c then true else false
  | Inf s, Inf s' => Bool.eqb s s'
  | _, _ => false
  end.

Definition is_nan (x : t) : bool :=
  match x with
  | NaN => true
  | _ => false
  end.

End Float32.

(* ================================================================== *)
(** ** [jax.numpy] on lists of reals *)
(* ================================================================== *)

Module Jnp.

(** One-dimensional arrays, and two-dimensional arrays stored by rows. *)
Definition Vec := list R.
Definition Mat := list (list R).

Definition map2 {A B C} (f : A -> B -> C) (u : list A) (v : list B) : list C :=
  map (fun p => f (fst p) (snd p)) (combine u v).

Definition vsum (v : Vec) : R := fold_right Rplus 0 v.

(** [jnp.mean] of a 2-d array: the sum of all entries over their number. *)
Definition flatten (m : Mat) : Vec := concat m.
Definition mean (m : Mat) : R := vsum (flatten m) / INR (length (flatten m)).

(** Inner product of two 1-d arrays. *)
Definition vdot (u v : Vec) : R := vsum (map2 Rmult u v).

Definition ncols (m : Mat) : nat := length (hd [] m).
Definition col (j : nat) (m : Mat) : Vec := map (fun r => nth j r 0) m.

(** [m.T] *)
Definition transpose (m : Mat) : Mat :=
  map (fun j => col j m) (seq 0 (ncols m)).

(** [jnp.dot(a, b)] and [a @ b] on 2-d arrays: entry (i, j) is the inner
    product of row i of [a] with column j of [b]. *)
Definition dot (a b : Mat) : Mat :=
  map (fun r => map (fun j => vdot r (col j b)) (seq 0 (ncols b))) a.

(** Elementwise operations, and operations with a scalar. *)
Definition vadd (u v : Vec) : Vec := map2 Rplus u v.
Definition vsub (u v : Vec) : Vec := map2 Rminus u v.
Definition vscal (c : R) (v : Vec) : Vec := map (Rmult c) v.
Definition vdivs (v : Vec) (c : R) : Vec := map (fun x => x / c) v.
Definition msub (a b : Mat) : Mat := map2 vsub a b.
Definition mscal (c : R) (m : Mat) : Mat := map (vscal c) m.
Definition mdivs (m : Mat) (c : R) : Mat := map (fun r => vdivs r c) m.

(** [m ** 2] *)
Definition msquare (m : Mat) : Mat := map (map (fun x => x ^ 2)) m.

(** [m + b] for [m] of shape (N, k) and [b] of shape (k,): [b] is added to
    every row. *)
Definition add_bias (m : Mat) (b : Vec) : Mat := map (fun r => vadd r b) m.

(** [jnp.linalg.norm] with default arguments: the Euclidean norm of a 1-d
    array, the Frobenius norm of a 2-d one. *)
Definition vnorm (v : Vec) : R := sqrt (vsum (map (fun x => x * x) v)).
Definition mnorm (m : Mat) : R := vnorm (flatten m).

(** [jnp.diag] of a 1-d array (the diagonal matrix) and of a 2-d array (its
    diagonal). *)
Definition diagm (v : Vec) : Mat :=
  map (fun i => map (fun j => if Nat.eqb i j then nth i v 0 else 0)
                    (seq 0 (length v)))
      (seq 0 (length v)).
Definition diagv (m : Mat) : Vec :=
  map (fun i => nth i (nth i m []) 0) (seq 0 (length m)).

(** [x < y] on scalars, as a boolean. *)
Definition ltb (x y : R) : bool := if Rlt_dec x y then true else false.

(** [X[idx]] with an array of row indices: one row per index, in order,
    repeated indices giving repeated rows. *)
Definition take_rows (m : Mat) (idx : list nat) : Mat :=
  map (fun i => nth i m []) idx.

(** [x == y] on float32 scalars, as a boolean. *)
Definition eqb (x y : Float32.t) : bool := Float32.eqb x y.

(** The operations below check shapes or indices and can raise. *)

(** [v[i]] with a constant index: an index past the end is clamped to the
    last entry, and only an array without entries raises. *)
Definition item (v : Vec) (i : nat) : outcome R :=
  match v with
  | [] => Raised IndexError
  | _ :: _ => Returned (nth (Nat.min i (length v - 1)) v 0)
  end.

(** [m[i][j]]: [m[i]] is a row, clamped in the same way, then [row[j]]. *)
Definition item2 (m : Mat) (i j : nat) : outcome R :=
  match m with
  | [] => Raised IndexError
  | _ :: _ => item (nth (Nat.min i (length m - 1)) m []) j
  end.

(** [jnp.ones((n, 1))] *)
Definition ones (n : nat) : Mat := repeat [1] n.

(** [jnp.hstack] of two 2-d arrays: they must have as many rows. *)
Definition hstack (a c : Mat) : outcome Mat :=
  if Nat.eqb (length a) (length c) then Returned (map2 (@app R) a c)
  else Raised ShapeError.

(** [u / v] on 1-d arrays, with broadcasting of a length-1 operand. *)
Definition bdiv (u v : Vec) : outcome Vec :=
  if Nat.eqb (length u) (length v) then Returned (map2 Rdiv u v)
  else match u, v with
       | _, [c] => Returned (map (fun x => x / c) u)
       | [a], _ => Returned (map (fun x => a / x) v)
       | _, _ => Raised ShapeError
       end.







End Jnp.

(* ================================================================== *)
(** ** Derivatives, integrals and the normal distribution function *)
(* ================================================================== *)

Module Autodiff.

(** [grad f] maps [x] to the derivative of [f] at [x]; where [f] has no
    derivative the value is irrelevant (0 here). *)
Definition grad (f : R -> R) (x : R) : R :=
  match excluded_middle_informative (exists l, derivable_pt_lim f x l) with
  | left H => proj1_sig (constructive_indefinite_description _ H)
  | right _ => 0
  end.

(** Replacing one entry of an array. *)
Definition vset (v : Jnp.Vec) (j : nat) (t : R) : Jnp.Vec :=
  firstn j v ++ t :: skipn (S j) v.
Definition mset (m : Jnp.Mat) (i j : nat) (t : R) : Jnp.Mat :=
  firstn i m ++ vset (nth i m []) j t :: skipn (S i) m.

(** [grad(f, (0, 1))(W, b, X, y)]: the arrays of the partial derivatives of
    [f] in every entry of [W] and of [b]. *)
Definition grad01 (f : Jnp.Mat -> Jnp.Vec -> Jnp.Mat -> Jnp.Mat -> R)
  (W : Jnp.Mat) (b : Jnp.Vec) (X y : Jnp.Mat) : Jnp.Mat * Jnp.Vec :=
  (map (fun i =>
          map (fun j => grad (fun t => f (mset W i j t) b X y)
                             (nth j (nth i W []) 0))
              (seq 0 (length (nth i W []))))
       (seq 0 (length W)),
   map (fun j => grad (fun t => f W (vset b j t) X y) (nth j b 0))
       (seq 0 (length b))).

End Autodiff.

Module Normal.

(** The Riemann integral of [f] from [a] to [b] where it exists, and the
    least upper bound of a set of reals where it exists. *)
Definition integral (f : R -> R) (a b : R) : R :=
  match excluded_middle_informative
          (exists pr : Riemann_integrable f a b, True) with
  | left H => RiemannInt (proj1_sig (constructive_indefinite_description _ H))
  | right _ => 0
  end.

Definition supremum (E : R -> Prop) : R :=
  match excluded_middle_informative (exists m, is_lub E m) with
  | left H => proj1_sig (constructive_indefinite_description _ H)
  | right _ => 0
  end.

(** The unnormalised density of the standard normal law, its mass on
    [[0, x]] and on the half line. *)
Definition gauss (t : R) : R := exp (- (t * t) / 2).
Definition gauss_mass (x : R) : R := integral gauss 0 x.
Definition mass_value (m : R) : Prop := exists x, 0 <= x /\ m = gauss_mass x.
Definition half_mass : R := supremum mass_value.

(** The standard normal distribution function: the density is
    [gauss t / (2 * half_mass)]. *)
Definition cdf (z : R) : R :=
  if Rle_dec 0 z then 1 / 2 + gauss_mass z / (2 * half_mass)
  else 1 / 2 - gauss_mass (- z) / (2 * half_mass).

End Normal.

(* ================================================================== *)
(** ** The external collaborators *)
(* ================================================================== *)

(** What the notebook consumes and does not define, grouped by library. *)

(** [jax.grad], in its two uses: on a function of one real, and on [loss]
    with respect to its arguments 0 and 1. *)
Class Differentiation := {
  (** [grad(f)] *)
  grad : (R -> R) -> R -> R;
  (** [grad(f, (0, 1))] *)
  grad01 : (Jnp.Mat -> Jnp.Vec -> Jnp.Mat -> Jnp.Mat -> R) ->
           Jnp.Mat -> Jnp.Vec -> Jnp.Mat -> Jnp.Mat -> Jnp.Mat * Jnp.Vec
}.

(** [jax.random]: keys are values, a sampler is a function of its key. *)
Class Sampler := {
  Key : Type;
  (** [jnr.PRNGKey(seed)] *)
  PRNGKey : nat -> Key;
  (** [jnr.randint(key, shape=(r, c), minval, maxval)] *)
  randint : Key -> nat -> nat -> nat -> nat -> list (list nat)
}.

(** [jnp.linalg.eigh] (eigenvalues, and the matrix whose columns are the
    eigenvectors) and [norm.cdf]. *)
Class Stats := {
  eigh : Jnp.Mat -> Jnp.Vec * Jnp.Mat;
  norm_cdf : R -> R
}.

(* ================================================================== *)
(** ** nn_features.ipynb *)
(* ================================================================== *)

Module NNFeatures.
Import Jnp.

Section Cells.
Context {AD : Differentiation} {RNG : Sampler} {ST : Stats}.

(** *** Derivatives and the Taylor accumulation *)

Definition f (x : R) : R := x ^ 2.

Definition grad_f : R -> R := grad f.

(** [x**(1/2)] *)
Definition sqrt (x : R) : R := Rpower x (1 / 2).

Definition d1 : R -> R := grad sqrt.

Definition approx_val : R := 7 + d1 49 * (-6).

(** The variables of the accumulation loop. *)
Record TaylorVars := {
  d : R -> R;
  approx_total : R;
  factorial : nat
}.

Definition highest_order : nat := 5.

Definition taylor_init : TaylorVars :=
  {| d := sqrt; approx_total := 7; factorial := 1 |}.

(** The body of [for i in range(1, highest_order+1)], in statement order:
    differentiate, accumulate with the current [factorial], then update
    [factorial]. *)
Definition taylor_body (s : TaylorVars) (i : nat) : TaylorVars :=
  let d' := grad (d s) in
  let approx_total' :=
    approx_total s + d' 49 * IZR ((-6) ^ Z.of_nat i) / INR (factorial s) in
  {| d := d'; approx_total := approx_total';
     factorial := (factorial s * i)%nat |}.

(** The variables after the first [k] iterations of the loop. *)
Definition taylor_after (k : nat) : TaylorVars :=
  fold_left taylor_body (firstn k (seq 1 highest_order)) taylor_init.

(** *** Linear regression: model and loss *)

Definition predict (w : Mat) (b : Vec) (x : Mat) : Mat :=
  add_bias (dot x w) b.

Definition loss (w : Mat) (b : Vec) (x y : Mat) : R :=
  mean (msquare (msub (predict w b x) y)).

(** One printed line: [Epoch .., Loss: ... Parameters: W.flatten(), b[0]]. *)
Record Line := {
  ln_epoch : nat;
  ln_loss : R;
  ln_W : Vec;
  ln_b : R
}.

(** The notebook's global variables read or written by the regression
    cells, and the output area of the running cell.  Arrays are immutable:
    [W -= ...] rebinds [W], so [old_W] keeps the previous array. *)
Record Env := {
  X : Mat;
  y : Mat;
  W : Mat;
  b : Vec;
  old_W : Mat;
  old_b : Vec;
  loss_val : R;
  epoch : nat;
  key : Key;
  minibatch_loss : R;
  stdout : list Line
}.

Definition report (every : nat) (shown_loss : R) (e : Env) : list Line :=
  if Nat.eqb (epoch e mod every) 0
  then stdout e ++ [{| ln_epoch := epoch e; ln_loss := shown_loss;
                       ln_W := flatten (W e); ln_b := nth 0 (b e) 0 |}]
  else stdout e.

(** The test before [break]. *)
Definition converged (tolerance : R) (e : Env) : bool :=
  ltb (mnorm (msub (W e) (old_W e))) tolerance &&
  ltb (vnorm (vsub (b e) (old_b e))) tolerance.

Definition next_epoch (e : Env) : Env :=
  {| X := X e; y := y e; W := W e; b := b e; old_W := old_W e;
     old_b := old_b e; loss_val := loss_val e; epoch := S (epoch e);
     key := key e; minibatch_loss := minibatch_loss e; stdout := stdout e |}.

(** *** Full-batch gradient descent *)

(** The loop body up to and including the print. *)
Definition full_batch_body (learning_rate : R) (e : Env) : Env :=
  let loss_val' := loss (W e) (b e) (X e) (y e) in
  let g := grad01 loss (W e) (b e) (X e) (y e) in
  let W' := msub (W e) (mscal learning_rate (fst g)) in
  let b' := vsub (b e) (vscal learning_rate (snd g)) in
  let e' :=
    {| X := X e; y := y e; W := W'; b := b'; old_W := W e; old_b := b e;
       loss_val := loss_val'; epoch := epoch e; key := key e;
       minibatch_loss := minibatch_loss e; stdout := stdout e |} in
  {| X := X e'; y := y e'; W := W e'; b := b e'; old_W := old_W e';
     old_b := old_b e'; loss_val := loss_val e'; epoch := epoch e';
     key := key e'; minibatch_loss := minibatch_loss e';
     stdout := report 100 loss_val' e' |}.

(** [while True: ...], run for at most [fuel] epochs: [None] when the
    loop is still running after [fuel] epochs. *)
Fixpoint fit_full_batch (learning_rate tolerance : R) (fuel : nat) (e : Env)
  : option Env :=
  match fuel with
  | O => None
  | S fuel' =>
      let e' := full_batch_body learning_rate e in
      if converged tolerance e' then Some e'
      else fit_full_batch learning_rate tolerance fuel' (next_epoch e')
  end.

Definition restart (e : Env) : Env :=
  {| X := X e; y := y e; W := W e; b := b e; old_W := old_W e;
     old_b := old_b e; loss_val := loss_val e; epoch := 0;
     key := key e; minibatch_loss := minibatch_loss e; stdout := [] |}.

(** The cell as written: [learning_rate = 0.01], [epoch = 0], tolerance
    [1e-5]. *)
Definition full_batch_cell (fuel : nat) (e : Env) : option Env :=
  fit_full_batch (1 / 100) (1 / 100000) fuel (restart e).

(** *** Mini-batch gradient descent *)

(** The body of [for i in range(num_batches)] for the index row
    [indices[i]]. *)
Definition batch_step (learning_rate : R) (batch_size : nat) (e : Env)
  (idx : list nat) : Env :=
  let X_batch := take_rows (X e) idx in
  let y_batch := take_rows (y e) idx in
  let loss_val' := loss (W e) (b e) X_batch y_batch in
  let g := grad01 loss (W e) (b e) X_batch y_batch in
  {| X := X e; y := y e;
     W := msub (W e) (mdivs (mscal learning_rate (fst g)) (INR batch_size));
     b := vsub (b e) (vdivs (vscal learning_rate (snd g)) (INR batch_size));
     old_W := W e; old_b := b e;
     loss_val := loss_val'; epoch := epoch e; key := key e;
     minibatch_loss := minibatch_loss e + loss_val'; stdout := stdout e |}.

(** The rows [indices[0]], ..., [indices[num_batches - 1]]. *)
Definition batches_of (indices : list (list nat)) (num_batches : nat)
  : list (list nat) :=
  map (fun i => nth i indices []) (seq 0 num_batches).

Definition epoch_indices (batch_size num_batches : nat) (e : Env)
  : list (list nat) :=
  randint (PRNGKey (epoch e)) num_batches batch_size 0 (length (X e)).

(** The body of the [while] loop up to and including the print. *)
Definition minibatch_body (learning_rate : R) (batch_size num_batches : nat)
  (e : Env) : Env :=
  let key' := PRNGKey (epoch e) in
  let indices := randint key' num_batches batch_size 0 (length (X e)) in
  let e0 :=
    {| X := X e; y := y e; W := W e; b := b e; old_W := old_W e;
       old_b := old_b e; loss_val := loss_val e; epoch := epoch e;
       key := key'; minibatch_loss := 0; stdout := stdout e |} in
  let e1 :=
    fold_left (batch_step learning_rate batch_size)
              (batches_of indices num_batches) e0 in
  {| X := X e1; y := y e1; W := W e1; b := b e1; old_W := old_W e1;
     old_b := old_b e1; loss_val := loss_val e1; epoch := epoch e1;
     key := key e1; minibatch_loss := minibatch_loss e1;
     stdout := report 10 (minibatch_loss e1 / INR num_batches) e1 |}.

Fixpoint fit_minibatch (learning_rate : R) (batch_size num_batches : nat)
  (tolerance : R) (fuel : nat) (e : Env) : option Env :=
  match fuel with
  | O => None
  | S fuel' =>
      let e' := minibatch_body learning_rate batch_size num_batches e in
      if converged tolerance e' then Some e'
      else fit_minibatch learning_rate batch_size num_batches tolerance
                         fuel' (next_epoch e')
  end.

(** The cell as written: [learning_rate = 0.001], [batch_size = 16],
    [num_batches = 100], [epoch = 0], tolerance [1e-5]. *)
Definition minibatch_cell (fuel : nat) (e : Env) : option Env :=
  fit_minibatch (1 / 1000) 16 100 (1 / 100000) fuel (restart e).

(** *** p-values of the coefficients *)

(** [sigma2 * eig_vecs @ jnp.diag(1/jnp.sqrt(eig_vals)) @ eig_vecs.T];
    [*] and [@] associate to the left. *)
Definition W_std_of (sigma2 : R) (eig_vals : Vec) (eig_vecs : Mat) : Mat :=
  dot (dot (mscal sigma2 eig_vecs)
           (diagm (map (fun l => 1 / R_sqrt.sqrt l) eig_vals)))
      (transpose eig_vecs).

(** The lines from [X_ = ...] to [W_pvals = ...]; [n] is the row count the
    cell writes in [jnp.ones((1000, 1))]. *)
Definition coefficient_p_values (n : nat) (W : Mat) (b : Vec) (sigma2 : R)
  (X : Mat) : outcome Vec :=
  X_ <- hstack (ones n) X ;;
  b0 <- item b 0 ;;
  w0 <- item2 W 0 0 ;;
  w1 <- item2 W 1 0 ;;
  let W_ := [b0; w0; w1] in
  let S := mscal (1 / sigma2) (dot (transpose X_) X_) in
  let eig_vals := fst (eigh S) in
  let eig_vecs := snd (eigh S) in
  let W_std := W_std_of sigma2 eig_vals eig_vecs in
  q <- bdiv (map Rabs W_) (diagv W_std) ;;
  Returned (map (fun z => 2 * (1 - norm_cdf z)) q).

(** The end of either regression cell: [sigma2 = loss_val], 1000 rows. *)
Definition p_values_cell (e : Env) : outcome Vec :=
  coefficient_p_values 1000 (W e) (b e) (loss_val e) (X e).

End Cells.
End NNFeatures.

(* ================================================================== *)
(** ** The notebook comparing inner products *)
(* ================================================================== *)

Module JaxAsNumpy.
Import Jnp.


End JaxAsNumpy.

(* ================================================================== *)
(** ** Vocabulary of the statements *)
(* ================================================================== *)

Section Vocabulary.
Context {AD : Differentiation} {RNG : Sampler} {ST : Stats}.
Import Jnp NNFeatures.

(** *** The Taylor accumulation *)

(** The [i]-th term as the loop adds it: the divisor is the value of
    [factorial] before the update of iteration [i], that is (i-1)!. *)
Definition accumulated_term (i : nat) : R :=
  Nat.iter i grad sqrt 49 * IZR ((-6) ^ Z.of_nat i) / INR (fact (i - 1)).

(** The [i]-th term of the Taylor polynomial of [sqrt] about 49 at 43. *)
Definition taylor_term (i : nat) : R :=
  Nat.iter i grad sqrt 49 * IZR ((-6) ^ Z.of_nat i) / INR (fact i).

Definition taylor_polynomial (k : nat) : R :=
  7 + vsum (map taylor_term (seq 1 k)).

(** *** The full-batch loop *)

(** The variables at the top of the loop body in epoch [k], provided the
    loop has not stopped before, and at the convergence test of epoch [k]. *)
Definition epoch_start (learning_rate : R) (k : nat) (e : Env) : Env :=
  Nat.iter k (fun s => next_epoch (full_batch_body learning_rate s)) e.

Definition epoch_end (learning_rate : R) (k : nat) (e : Env) : Env :=
  full_batch_body learning_rate (epoch_start learning_rate k e).

(** The stopping condition at epoch [k]: both changes are below the
    tolerance. *)
Definition stops_at (learning_rate tolerance : R) (e : Env) (k : nat) : Prop :=
  let s := epoch_start learning_rate k e in
  let s' := epoch_end learning_rate k e in
  mnorm (msub (W s') (W s)) < tolerance /\
  vnorm (vsub (b s') (b s)) < tolerance.

(** *** The mini-batch loop *)

(** What [jnr.randint] promises: an array of the requested shape whose
    entries lie in [[minval, maxval)]. *)
Definition sampler_contract : Prop :=
  forall key r c lo hi, (lo < hi)%nat ->
    length (randint key r c lo hi) = r /\
    Forall (fun row => length row = c /\
                       Forall (fun i => (lo <= i < hi)%nat) row)
           (randint key r c lo hi).

(** One update of the pair (W, b) on the rows [idx]: the gradient is divided
    by the batch size, scaled by the learning rate and subtracted. *)
Definition sgd_update (learning_rate : R) (batch_size : nat) (X y : Mat)
  (p : Mat * Vec) (idx : list nat) : Mat * Vec :=
  let g := grad01 loss (fst p) (snd p) (take_rows X idx) (take_rows y idx) in
  (msub (fst p) (mscal learning_rate (mdivs (fst g) (INR batch_size))),
   vsub (snd p) (vscal learning_rate (vdivs (snd g) (INR batch_size)))).

(** Two notebooks agree on what a run reads: data, parameters, the epoch
    counter every key is derived from, and the output printed so far. *)
Definition same_inputs (e1 e2 : Env) : Prop :=
  X e1 = X e2 /\ y e1 = y e2 /\ W e1 = W e2 /\ b e1 = b e2 /\
  epoch e1 = epoch e2 /\ stdout e1 = stdout e2.

(** *** The p-value computation *)

(** The augmented design matrix and the scaled Gram matrix of the cell. *)
Definition augmented (X : Mat) : Mat := map (cons 1) X.
Definition scaled_gram (sigma2 : R) (X : Mat) : Mat :=
  mscal (1 / sigma2) (dot (transpose (augmented X)) (augmented X)).

(** The matrix [W_std] the cell builds from the oracle's answer. *)
Definition W_std (sigma2 : R) (X : Mat) : Mat :=
  W_std_of sigma2 (fst (eigh (scaled_gram sigma2 X)))
                  (snd (eigh (scaled_gram sigma2 X))).

(** Inputs on which the cell raises no shape or index error: [X] has the
    [n] rows of [jnp.ones((n, 1))], [b[0]], [W[0][0]] and [W[1][0]] exist,
    and the eigenvector matrix has three rows, one per coefficient. *)
Definition well_shaped (n : nat) (W : Mat) (b : Vec) (sigma2 : R) (X : Mat)
  (b0 w0 w1 : R) : Prop :=
  length X = n /\
  item b 0 = Returned b0 /\
  item2 W 0 0 = Returned w0 /\
  item2 W 1 0 = Returned w1 /\
  length (snd (eigh (scaled_gram sigma2 X))) = 3%nat.

(** The p-value the cell returns for one coefficient: the coefficient is
    divided by the diagonal entry of [W_std] itself. *)
Definition p_value (coefficient diagonal_entry : R) : R :=
  2 * (1 - norm_cdf (Rabs coefficient / diagonal_entry)).

(** [jnp.eye(n)] *)
Definition identity (n : nat) : Mat := diagm (repeat 1 n).

(** What [jnp.linalg.eigh] promises on a symmetric matrix [S]: as many
    eigenvalues as [S] has rows, a square matrix [V] of that size with
    [V . V.T = I], and [V . diag(eigenvalues) . V.T = S]. *)
Definition is_eigendecomposition (S : Mat) (r : Vec * Mat) : Prop :=
  length (fst r) = length S /\
  length (snd r) = length S /\
  Forall (fun row => length row = length S) (snd r) /\
  dot (snd r) (transpose (snd r)) = identity (length S) /\
  dot (dot (snd r) (diagm (fst r))) (transpose (snd r)) = S.

(** What [norm.cdf] promises on the non-negative half line. *)
Definition cdf_contract : Prop :=
  forall z, 0 <= z -> 1 / 2 <= norm_cdf z <= 1.

End Vocabulary.

(** The coefficient [p (p - 1) ... (p - i + 1)] with [p = 1/2]. *)
Fixpoint half_falling (i : nat) : R :=
  match i with
  | O => 1
  | S j => half_falling j * (1 / 2 - INR j)
  end.

(* ================================================================== *)
(** ** Implementations of the collaborators, and inputs *)
(* ================================================================== *)

(** Exact differentiation. *)
Definition exact_diff : Differentiation :=
  {| grad := Autodiff.grad; grad01 := Autodiff.grad01 |}.

(** A deterministic sampler: keys are seeds, entry (i, j) of the array drawn
    with seed [s] is [minval + (s + 7 * i + 3 * j) mod (maxval - minval)]. *)
Definition seeded_sampler : Sampler :=
  {| Key := nat;
     PRNGKey := fun seed => seed;
     randint := fun s r c lo hi =>
       map (fun i => map (fun j => lo + (s + 7 * i + 3 * j) mod (hi - lo))%nat
                         (seq 0 c))
           (seq 0 r) |}.

(** [eigh] answering with a given decomposition, and the normal
    distribution function. *)
Definition stats_with (decomposition : Jnp.Vec * Jnp.Mat) : Stats :=
  {| eigh := fun _ => decomposition; norm_cdf := Normal.cdf |}.

(** The variables of a notebook whose data is one sample [(x, t)] and whose
    parameters are [w] and [c]. *)
Definition single_env (x t w c : R) : @NNFeatures.Env seeded_sampler :=
  @NNFeatures.Build_Env seeded_sampler
    [[x]] [[t]] [[w]] [c] [[w]] [c] 0 0%nat 0%nat 0 [].

(** A notebook with the same data and parameters as [single_env 20 0 1 0]
    but other leftovers in [old_W], [old_b], [loss_val], [key] and
    [minibatch_loss]. *)
Definition other_notebook : @NNFeatures.Env seeded_sampler :=
  @NNFeatures.Build_Env seeded_sampler
    [[20]] [[0]] [[1]] [0] [[5]] [7] 3 0%nat 9%nat 2 [].

(** A dataset of full rank with a thousand rows: the four sign patterns of
    two features, 250 times; the augmented columns are orthogonal, each of
    squared length 1000. *)
Definition sign_block : Jnp.Mat := [[1; 1]; [1; -1]; [-1; 1]; [-1; -1]].
Definition X_signs : Jnp.Mat := concat (repeat sign_block 250).


Definition eye3 : Jnp.Mat := [[1; 0; 0]; [0; 1; 0]; [0; 0; 1]].


(** The oracles' answers on the two datasets: the scaled Gram matrix of
    [X_signs] with variance 250 is 4 I, that of [X_twin] with variance 1000
    is [[1,0,0],[0,1,1],[0,1,1]]. *)
Definition stats_signs : Stats := stats_with ([4; 4; 4], eye3).

(* ================================================================== *)
(** ** The rest of the cells *)
(* ================================================================== *)

(** [jax.random], continued: splitting a key and drawing normal samples.
    As for [randint], a draw is a function of its key and shape. *)
Class Gaussian {RNG : Sampler} := {
  (** [jnr.split(key)] *)
  split : Key -> Key * Key;
  (** [jnr.normal(key, (r, c))] *)
  normal : Key -> nat -> nat -> Jnp.Mat;
  (** [jnr.normal(key, (n,))] and [jnr.normal(key, (n))] *)
  normal1 : Key -> nat -> Jnp.Vec
}.

Module NNData.
Import Jnp.

Section Cells.
Context {RNG : Sampler} {GS : Gaussian}.

(** [a + c] on 2-d arrays of one shape, and [a + k] with a scalar. *)
Definition madd (a c : Mat) : Mat := map2 vadd a c.
Definition madds (a : Mat) (k : R) : Mat := map (map (fun x => x + k)) a.

(** [linear_model(in_size, out_size)], reading the global [key]. *)
Definition linear_model (key : Key) (in_size out_size : nat) : Mat * Vec :=
  let W_key := fst (split key) in
  let b_key := snd (split key) in
  let w := normal W_key in_size out_size in
  let b := normal1 b_key out_size in
  (w, b).

(** The noise term [jnr.normal(key, (n, 1))] of the targets. *)
Definition noise (n : nat) : Mat := normal (PRNGKey 2) n 1.

(** The first lines of the regression cell, from [key = jnr.PRNGKey(2)] to
    [X = jnp.hstack([X1, X2])], with [n] for the 1000 the cell writes: the
    global [key], the features [X] and the targets [y]. *)
Definition make_data (n : nat) : outcome (Key * Mat * Mat) :=
  let key := PRNGKey 2 in
  let X1_key := fst (split key) in
  let X2_key := snd (split key) in
  let X1 := normal X1_key n 1 in
  let X2 := normal X2_key n 1 in
  let y := madd (madds (madd (mscal (-11) X1) (mscal 12 X2)) 3)
                (mscal 3 (normal key n 1)) in
  X <- hstack X1 X2 ;;
  Returned (key, X, y).

(** The variables of the regression cell when its loop starts: the data,
    the parameters [linear_model(2, 1)] returns and [epoch = 0].  The loop
    assigns [old_W], [old_b] and [loss_val] before it reads them, and the
    mini-batch cell does so for [minibatch_loss]; they start here as the
    parameters and 0. *)
Definition regression_start (n : nat) : outcome NNFeatures.Env :=
  d <- make_data n ;;
  let key := fst (fst d) in
  let p := linear_model key 2 1 in
  Returned
    {| NNFeatures.X := snd (fst d); NNFeatures.y := snd d;
       NNFeatures.W := fst p; NNFeatures.b := snd p;
       NNFeatures.old_W := fst p; NNFeatures.old_b := snd p;
       NNFeatures.loss_val := 0; NNFeatures.epoch := 0;
       NNFeatures.key := key; NNFeatures.minibatch_loss := 0;
       NNFeatures.stdout := [] |}.


End Cells.
End NNData.

Section MoreVocabulary.
Context {AD : Differentiation} {RNG : Sampler} {GS : Gaussian} {ST : Stats}.
Import Jnp NNFeatures.

(** A list of numbers as a matrix of one column. *)
Definition column (v : Vec) : Mat := map (fun t => [t]) v.

(** Data of the shape the model expects: weights for [k >= 1] features,
    [N >= 1] samples of [k] features each, and one target per sample. *)
Definition regression_data (ws : Vec) (X : Mat) (ts : Vec) : Prop :=
  ws <> [] /\ X <> [] /\ length X = length ts /\
  Forall (fun x => length x = length ws) X.


(** An array of zeros of the shape of [m], of [v]. *)
Definition zeros_like (m : Mat) : Mat := map (map (fun _ => 0)) m.
Definition zeros_like1 (v : Vec) : Vec := map (fun _ => 0) v.

(** The shape of a 2-d array: the lengths of its rows. *)
Definition shape (m : Mat) : list nat := map (@length R) m.

(** What [grad(loss, (0, 1))] promises about shapes: each gradient has the
    shape of the argument it is taken in. *)
Definition grad_shape_contract : Prop :=
  forall W b X y,
    shape (fst (grad01 loss W b X y)) = shape W /\
    length (snd (grad01 loss W b X y)) = length b.

(** What [jnr.normal] promises about shapes. *)
Definition normal_contract : Prop :=
  forall key r c,
    length (normal key r c) = r /\
    Forall (fun row => length row = c) (normal key r c) /\
    length (normal1 key r) = r.

(** The shapes of the arrays of the regression cells: [X] is (N, k), [y]
    is (N, 1), [W] is (k, 1) and [b] is (1,). *)
Definition regression_shapes (e : Env) : Prop :=
  length (y e) = length (X e) /\
  Forall (fun row => length row = length (W e)) (X e) /\
  Forall (fun row => length row = 1%nat) (y e) /\
  Forall (fun row => length row = 1%nat) (W e) /\
  length (b e) = 1%nat.

(** What [jnp.linalg.eigh] promises about shapes: one eigenvector per row
    of its argument. *)
Definition eigh_shape_contract : Prop :=
  forall S, length (snd (eigh S)) = length S.

(** The line the full-batch loop prints in the state [s]. *)
Definition line_of (s : Env) : Line :=
  {| ln_epoch := epoch s; ln_loss := loss_val s;
     ln_W := flatten (W s); ln_b := nth 0 (b s) 0 |}.

(** The passes [j <= k] of a full-batch loop started with the epoch counter
    at [start] in which it prints. *)
Definition printing_epochs (start k : nat) : list nat :=
  filter (fun j => Nat.eqb ((start + j) mod 100) 0) (seq 0 (S k)).

(** The losses of the successive batches of an epoch started at the
    parameters [p]: each is taken at the parameters left by the batch
    before. *)
Fixpoint batch_losses (learning_rate : R) (batch_size : nat) (X y : Mat)
  (batches : list (list nat)) (p : Mat * Vec) : list R :=
  match batches with
  | [] => []
  | idx :: rest =>
      loss (fst p) (snd p) (take_rows X idx) (take_rows y idx)
      :: batch_losses learning_rate batch_size X y rest
           (sgd_update learning_rate batch_size X y p idx)
  end.

End MoreVocabulary.

(** A generator for the concrete runs: every entry drawn with the seed [s]
    is [s], and splitting the seed [s] gives [2 s + 1] and [2 s + 2]. *)
Definition constant_gaussian : @Gaussian seeded_sampler :=
  {| split := fun s : @Key seeded_sampler => ((2 * s + 1)%nat, (2 * s + 2)%nat);
     normal := fun s r c => repeat (repeat (INR s) c) r;
     normal1 := fun s n => repeat (INR s) n |}.

(** [eigh] answering with ones and the identity of the size of its
    argument, and the normal distribution function. *)
Definition stats_identity : Stats :=
  {| eigh := fun S => (repeat 1 (length S), Jnp.diagm (repeat 1 (length S)));
     norm_cdf := Normal.cdf |}.

(* ################################################################## *)
(** * Part II: facts *)
(* ################################################################## *)

(* ================================================================== *)
(** ** Arrays *)
(* ================================================================== *)

Section ArrayFacts.
Import Jnp.

Lemma ltb_true (x y : R) : ltb x y = true <-> x < y.
Proof. unfold ltb; destruct (Rlt_dec x y); split; intros; try easy. Qed.

Lemma ltb_false (x y : R) : ltb x y = false <-> ~ x < y.
Proof. unfold ltb; destruct (Rlt_dec x y); split; intros; try easy. Qed.

Lemma vsum_app (u v : Vec) : vsum (u ++ v) = vsum u + vsum v.
Proof. induction u as [| a u IH]; simpl; [lra | rewrite IH; lra]. Qed.

Lemma vdot_app (u u' v v' : Vec) :
  length u = length v ->
  vdot (u ++ u') (v ++ v') = vdot u v + vdot u' v'.
Proof.
  unfold vdot, map2. revert v. induction u as [| a u IH]; intros [| c v] Hl;
    try discriminate.
  - cbn [app combine map vsum fold_right]. now rewrite Rplus_0_l.
  - cbn [app combine map fst snd vsum fold_right].
    change (fold_right Rplus 0 ?l) with (vsum l).
    injection Hl as Hl. rewrite (IH _ Hl). lra.
Qed.

Lemma col_app (j : nat) (m m' : Mat) : col j (m ++ m') = col j m ++ col j m'.
Proof. apply map_app. Qed.

Lemma length_col (j : nat) (m : Mat) : length (col j m) = length m.
Proof. apply length_map. Qed.

Lemma length_dot (a c : Mat) : length (dot a c) = length a.
Proof. unfold dot. apply length_map. Qed.

Lemma length_diagv (m : Mat) : length (diagv m) = length m.
Proof. unfold diagv. now rewrite length_map, length_seq. Qed.

Lemma vdivs_vscal (c k : R) (v : Vec) :
  vdivs (vscal c v) k = vscal c (vdivs v k).
Proof.
  unfold vdivs, vscal. rewrite !map_map. apply map_ext.
  intros x. unfold Rdiv. ring.
Qed.

Lemma mdivs_mscal (c k : R) (m : Mat) :
  mdivs (mscal c m) k = mscal c (mdivs m k).
Proof.
  unfold mdivs, mscal. rewrite !map_map. apply map_ext.
  intros r. apply vdivs_vscal.
Qed.

Lemma mnorm_single (v : R) : mnorm [[v]] = Rabs v.
Proof.
  unfold mnorm, vnorm. cbn. rewrite Rplus_0_r. apply sqrt_Rsqr_abs.
Qed.

Lemma vnorm_single (v : R) : vnorm [v] = Rabs v.
Proof.
  unfold vnorm. cbn. rewrite Rplus_0_r. apply sqrt_Rsqr_abs.
Qed.

(** The column matrix of a list of weights and its only column. *)
Lemma col0_column (ws : Vec) : col 0 (map (fun w => [w]) ws) = ws.
Proof.
  unfold col. rewrite map_map. cbn. apply map_id.
Qed.

End ArrayFacts.

(** What the array expression of [loss] computes: with the weights [ws] as
    a column, the bias [b0] and the targets [ts] as a column, it is the sum
    over the samples of [(x . ws + b0 - t)^2], over the number of samples. *)
Lemma loss_mean_squared_residuals (ws : Jnp.Vec) (b0 : R) (X : Jnp.Mat)
  (ts : Jnp.Vec) :
  ws <> [] ->
  NNFeatures.loss (map (fun w => [w]) ws) [b0] X (map (fun t => [t]) ts)
  = Jnp.vsum (Jnp.map2 (fun x t => (Jnp.vdot x ws + b0 - t) ^ 2) X ts)
    / INR (Nat.min (length X) (length ts)).
Proof.
  intros Hws.
  unfold NNFeatures.loss, NNFeatures.predict, Jnp.mean, Jnp.dot.
  assert (Hn : Jnp.ncols (map (fun w => [w]) ws) = 1%nat).
  { destruct ws; [contradiction | reflexivity]. }
  rewrite Hn. cbn [seq map]. rewrite col0_column.
  assert (Hflat :
    Jnp.flatten
      (Jnp.msquare
         (Jnp.msub
            (Jnp.add_bias (map (fun r => [Jnp.vdot r ws]) X) [b0])
            (map (fun t => [t]) ts)))
    = Jnp.map2 (fun x t => (Jnp.vdot x ws + b0 - t) ^ 2) X ts).
  { unfold Jnp.flatten, Jnp.msquare, Jnp.msub, Jnp.add_bias, Jnp.vadd,
      Jnp.vsub, Jnp.map2.
    revert ts. induction X as [| x X IH]; intros [| t ts]; try reflexivity.
    cbn [map combine concat fst snd app]. f_equal. apply IH. }
  rewrite Hflat. f_equal. f_equal.
  unfold Jnp.map2. now rewrite length_map, length_combine.
Qed.

(* ================================================================== *)
(** ** Differentiation *)
(* ================================================================== *)

Lemma grad_eq (g : R -> R) (x l : R) :
  derivable_pt_lim g x l -> Autodiff.grad g x = l.
Proof.
  intros Hl. unfold Autodiff.grad.
  destruct (excluded_middle_informative _) as [H | H].
  - destruct (constructive_indefinite_description _ H) as [l' Hl']; simpl.
    eapply uniqueness_limite; eassumption.
  - exfalso; apply H; now exists l.
Qed.

Lemma derivable_pt_lim_ext (g1 g2 : R -> R) (x l : R) :
  (forall t, g1 t = g2 t) ->
  derivable_pt_lim g2 x l -> derivable_pt_lim g1 x l.
Proof.
  intros Hfg Hg eps Heps. destruct (Hg eps Heps) as [delta Hdelta].
  exists delta; intros h Hh Hlt. rewrite !Hfg. now apply Hdelta.
Qed.

(** The derivative at a positive point only depends on the function on the
    positive half line. *)
Lemma derivable_pt_lim_pos_ext (g1 g2 : R -> R) (x l : R) :
  0 < x -> (forall t, 0 < t -> g1 t = g2 t) ->
  derivable_pt_lim g2 x l -> derivable_pt_lim g1 x l.
Proof.
  intros Hx Hfg Hg eps Heps.
  destruct (Hg eps Heps) as [delta Hdelta].
  assert (Hmin : 0 < Rmin delta x).
  { apply Rmin_glb_lt; [apply cond_pos | exact Hx]. }
  exists (mkposreal _ Hmin); simpl; intros h Hh Hlt.
  assert (Hh1 : Rabs h < delta).
  { eapply Rlt_le_trans; [exact Hlt | apply Rmin_l]. }
  assert (Hh2 : Rabs h < x).
  { eapply Rlt_le_trans; [exact Hlt | apply Rmin_r]. }
  assert (Hpos : 0 < x + h).
  { apply Rabs_def2 in Hh2. lra. }
  rewrite (Hfg _ Hpos), (Hfg _ Hx). now apply Hdelta.
Qed.

Lemma derivable_pt_lim_sq_affine (a k x : R) :
  derivable_pt_lim (fun t => (a * t + k) ^ 2) x (2 * a * (a * x + k)).
Proof.
  intros eps Heps.
  assert (Hden : 0 < a * a + 1) by nra.
  assert (Hdelta : 0 < eps / (a * a + 1)) by now apply Rdiv_lt_0_compat.
  exists (mkposreal _ Hdelta); simpl; intros h Hh Hlt.
  assert (Hq : ((a * (x + h) + k) * ((a * (x + h) + k) * 1) -
                (a * x + k) * ((a * x + k) * 1)) / h - 2 * a * (a * x + k)
               = a * a * h) by (field; exact Hh).
  rewrite Hq.
  rewrite Rabs_mult, (Rabs_pos_eq (a * a)) by nra.
  apply Rle_lt_trans with ((a * a + 1) * Rabs h).
  - pose proof (Rabs_pos h). nra.
  - apply Rmult_lt_reg_l with (/ (a * a + 1)).
    + now apply Rinv_0_lt_compat.
    + rewrite <- Rmult_assoc, Rinv_l, Rmult_1_l by lra.
      unfold Rdiv in Hlt. lra.
Qed.

(** The first cell prints 2.0: the derivative of [f] at 1. *)
Lemma grad_f_at_1 : @NNFeatures.grad_f exact_diff 1 = 2.
Proof.
  unfold NNFeatures.grad_f. cbn [grad exact_diff]. apply grad_eq.
  apply derivable_pt_lim_ext with (g2 := fun t => (1 * t + 0) ^ 2).
  - intros t. unfold NNFeatures.f. ring.
  - replace 2 with (2 * 1 * (1 * 1 + 0)) by ring.
    apply derivable_pt_lim_sq_affine.
Qed.

(** Exact differentiation of the notebook's [sqrt], any number of times. *)
Lemma iter_grad_sqrt (i : nat) (x : R) :
  0 < x ->
  Nat.iter i Autodiff.grad NNFeatures.sqrt x =
  half_falling i * Rpower x (1 / 2 - INR i).
Proof.
  revert x; induction i as [| i IH]; intros x Hx.
  - simpl. unfold NNFeatures.sqrt. rewrite Rminus_0_r. lra.
  - cbn [Nat.iter]. apply grad_eq.
    apply derivable_pt_lim_pos_ext
      with (g2 := fun t => half_falling i * Rpower t (1 / 2 - INR i)); auto.
    replace (half_falling (S i) * Rpower x (1 / 2 - INR (S i)))
      with (half_falling i * ((1 / 2 - INR i) * Rpower x (1 / 2 - INR i - 1))).
    + apply (derivable_pt_lim_scal (fun t => Rpower t (1 / 2 - INR i))).
      now apply derivable_pt_lim_power.
    + rewrite S_INR. cbn [half_falling].
      replace (1 / 2 - (INR i + 1)) with (1 / 2 - INR i - 1) by lra. ring.
Qed.

Lemma Rpower_49_half : Rpower 49 (1 / 2) = 7.
Proof.
  replace (1 / 2) with (/ 2) by lra.
  rewrite Rpower_sqrt by lra.
  replace 49 with (7 * 7) by lra. apply sqrt_square; lra.
Qed.

Lemma Rpower_49_minus_half : Rpower 49 (1 / 2 - 1) = / 7.
Proof.
  replace (1 / 2 - 1) with (- (1 / 2)) by lra.
  now rewrite Rpower_Ropp, Rpower_49_half.
Qed.

Lemma Rpower_49_minus_three_halves : Rpower 49 (1 / 2 - 2) = / 343.
Proof.
  replace (1 / 2 - 2) with (- (1 + 1 / 2)) by lra.
  rewrite Rpower_Ropp, Rpower_plus, Rpower_1, Rpower_49_half by lra.
  f_equal; lra.
Qed.

(** The derivatives of [sqrt] at 49 under exact differentiation. *)
Lemma exact_d1_49 :
  Nat.iter 1 (@grad exact_diff) NNFeatures.sqrt 49 = 1 / 14.
Proof.
  change (@grad exact_diff) with Autodiff.grad.
  rewrite iter_grad_sqrt by lra. cbn [half_falling INR].
  rewrite Rpower_49_minus_half. lra.
Qed.

Lemma exact_d2_49 :
  Nat.iter 2 (@grad exact_diff) NNFeatures.sqrt 49 = - (1 / 1372).
Proof.
  change (@grad exact_diff) with Autodiff.grad.
  rewrite iter_grad_sqrt by lra. cbn [half_falling INR].
  replace (1 / 2 - (1 + 1)) with (1 / 2 - 2) by lra.
  rewrite Rpower_49_minus_three_halves. lra.
Qed.

(** The first-order cell prints 6.571428...: [approx_val] is 46/7. *)
Lemma approx_val_exact : @NNFeatures.approx_val exact_diff = 46 / 7.
Proof.
  unfold NNFeatures.approx_val, NNFeatures.d1.
  change (grad NNFeatures.sqrt)
    with (Nat.iter 1 (@grad exact_diff) NNFeatures.sqrt).
  rewrite exact_d1_49. lra.
Qed.

Lemma loss_single (w c x t : R) :
  NNFeatures.loss [[w]] [c] [[x]] [[t]] = (x * w + c - t) ^ 2.
Proof.
  unfold NNFeatures.loss, NNFeatures.predict, Jnp.mean. cbn. field.
Qed.

(** The exact gradient of [loss] on a single sample with a single feature. *)
Lemma exact_grad01_single (w c x t : R) :
  @grad01 exact_diff NNFeatures.loss [[w]] [c] [[x]] [[t]]
  = ([[2 * x * (x * w + c - t)]], [2 * (x * w + c - t)]).
Proof.
  cbn [grad01 exact_diff]. unfold Autodiff.grad01.
  cbn [length seq map nth Autodiff.mset Autodiff.vset firstn skipn app].
  f_equal; repeat f_equal.
  - apply grad_eq.
    apply derivable_pt_lim_ext with (g2 := fun t0 => (x * t0 + (c - t)) ^ 2).
    + intros t0. rewrite loss_single. ring.
    + replace (2 * x * (x * w + c - t)) with (2 * x * (x * w + (c - t)))
        by ring.
      apply derivable_pt_lim_sq_affine.
  - apply grad_eq.
    apply derivable_pt_lim_ext
      with (g2 := fun t0 => (1 * t0 + (x * w - t)) ^ 2).
    + intros t0. rewrite loss_single. ring.
    + replace (2 * (x * w + c - t)) with (2 * 1 * (1 * c + (x * w - t)))
        by ring.
      apply derivable_pt_lim_sq_affine.
Qed.

(* ================================================================== *)
(** ** The normal distribution function *)
(* ================================================================== *)

Section NormalFacts.
Import Normal.

Lemma integral_eq (g : R -> R) (a b : R) (pr : Riemann_integrable g a b) :
  integral g a b = RiemannInt pr.
Proof.
  unfold integral. destruct (excluded_middle_informative _) as [H | H].
  - apply RiemannInt_P5.
  - exfalso. apply H. now exists pr.
Qed.

Lemma supremum_lub (E : R -> Prop) :
  bound E -> (exists x, E x) -> is_lub E (supremum E).
Proof.
  intros Hb Hne. unfold supremum.
  destruct (excluded_middle_informative _) as [H | H].
  - destruct (constructive_indefinite_description _ H) as [m Hm]. exact Hm.
  - exfalso. apply H. destruct (completeness E Hb Hne) as [m Hm]. now exists m.
Qed.

(** The integral of a continuous function with a known antiderivative. *)
Lemma RiemannInt_antiderivative (u U : R -> R) (a b : R)
  (pr : Riemann_integrable u a b) :
  a <= b ->
  continuity u ->
  (forall x, derivable_pt_lim U x (u x)) ->
  RiemannInt pr = U b - U a.
Proof.
  intros Hab Hc HU.
  assert (C0 : forall x, a <= x <= b -> continuity_pt u x)
    by (intros; apply Hc).
  rewrite (RiemannInt_P20 Hab (FTC_P1 Hab C0) pr).
  pose proof (RiemannInt_P29 Hab C0) as H1.
  assert (H2 : antiderivative u U a b).
  { split; [| exact Hab]. intros x _.
    exists (exist _ (u x) (HU x)). reflexivity. }
  destruct (antiderivative_Ucte _ _ _ _ _ H1 H2) as [c Hcst].
  rewrite (Hcst b), (Hcst a) by lra. ring.
Qed.

Lemma gauss_continuity : continuity gauss.
Proof. apply derivable_continuous. unfold gauss. reg. Qed.

Lemma gauss_integrable (a b : R) : Riemann_integrable gauss a b.
Proof.
  destruct (Rle_dec a b) as [Hab | Hab].
  - apply continuity_implies_RiemannInt; [exact Hab |].
    intros x _. apply gauss_continuity.
  - apply RiemannInt_P1. apply continuity_implies_RiemannInt; [lra |].
    intros x _. apply gauss_continuity.
Qed.

Lemma gauss_pos (t : R) : 0 < gauss t.
Proof. apply exp_pos. Qed.

Lemma exp_monotone (u v : R) : u <= v -> exp u <= exp v.
Proof.
  intros [Hlt | ->]; [left; now apply exp_increasing | right; reflexivity].
Qed.

Lemma gauss_le_1 (t : R) : gauss t <= 1.
Proof.
  unfold gauss. rewrite <- exp_0. apply exp_monotone.
  pose proof (Rle_0_sqr t) as Hs. unfold Rsqr in Hs. lra.
Qed.

Lemma gauss_decreasing (t v : R) : 0 <= t <= v -> gauss v <= gauss t.
Proof. intros Ht. unfold gauss. apply exp_monotone. nra. Qed.

(** [gauss] lies below [exp (1/2 - t)], whose integral is known. *)
Lemma gauss_le_tail (t : R) : gauss t <= exp (1 / 2 - t).
Proof.
  unfold gauss. apply exp_monotone.
  pose proof (Rle_0_sqr (t - 1)) as Hs. unfold Rsqr in Hs. lra.
Qed.

Lemma tail_continuity : continuity (fun t => exp (1 / 2 - t)).
Proof. apply derivable_continuous. reg. Qed.

Lemma tail_antiderivative (x : R) :
  derivable_pt_lim (fun t => - exp (1 / 2 - t)) x (exp (1 / 2 - x)).
Proof.
  replace (exp (1 / 2 - x)) with (- (exp (1 / 2 - x) * (0 - 1))) by ring.
  apply derivable_pt_lim_opp.
  apply (derivable_pt_lim_comp (fun t => 1 / 2 - t) exp).
  - apply (derivable_pt_lim_minus (fun _ => 1 / 2) (fun t => t)).
    + apply derivable_pt_lim_const.
    + apply derivable_pt_lim_id.
  - apply derivable_pt_lim_exp.
Qed.

Lemma exp_half_lt_2 : exp (1 / 2) < 2.
Proof.
  assert (H : exp (1 / 2) * exp (1 / 2) <= 3).
  { rewrite <- exp_plus. replace (1 / 2 + 1 / 2) with 1 by lra.
    apply exp_le_3. }
  assert (0 < exp (1 / 2)) by apply exp_pos. nra.
Qed.

Lemma gauss_mass_bound (x : R) : 0 <= x -> 0 <= gauss_mass x <= 2.
Proof.
  intros Hx. unfold gauss_mass.
  rewrite (integral_eq gauss 0 x (gauss_integrable 0 x)). split.
  - destruct (@RiemannInt_const_bound gauss 0 x 0 1 (gauss_integrable 0 x) Hx)
      as [H _].
    + intros t _. split; [left; apply gauss_pos | apply gauss_le_1].
    + lra.
  - assert (pr : Riemann_integrable (fun t => exp (1 / 2 - t)) 0 x).
    { apply continuity_implies_RiemannInt; [exact Hx |].
      intros t _. apply tail_continuity. }
    apply Rle_trans with (RiemannInt pr).
    + apply RiemannInt_P19; [exact Hx |]. intros t _. apply gauss_le_tail.
    + rewrite (RiemannInt_antiderivative _ (fun t => - exp (1 / 2 - t)) 0 x
                 pr Hx tail_continuity tail_antiderivative).
      rewrite Rminus_0_r.
      pose proof (exp_pos (1 / 2 - x)). pose proof exp_half_lt_2. lra.
Qed.

Lemma gauss_mass_0 : gauss_mass 0 = 0.
Proof.
  unfold gauss_mass. rewrite (integral_eq gauss 0 0 (gauss_integrable 0 0)).
  apply RiemannInt_P9.
Qed.

Lemma gauss_mass_increasing (u v : R) :
  0 <= u -> u < v -> gauss_mass u < gauss_mass v.
Proof.
  intros Hu Huv. unfold gauss_mass.
  rewrite (integral_eq gauss 0 u (gauss_integrable 0 u)),
          (integral_eq gauss 0 v (gauss_integrable 0 v)).
  rewrite <- (RiemannInt_P26 (gauss_integrable 0 u) (gauss_integrable u v)
                (gauss_integrable 0 v)).
  assert (Hlow : gauss v * (v - u) <= RiemannInt (gauss_integrable u v)).
  { apply (@RiemannInt_const_bound gauss u v (gauss v) 1
             (gauss_integrable u v)).
    - lra.
    - intros t Ht. split; [apply gauss_decreasing; lra | apply gauss_le_1]. }
  pose proof (gauss_pos v) as Hg.
  assert (0 < gauss v * (v - u)) by (apply Rmult_lt_0_compat; lra).
  lra.
Qed.

Lemma mass_value_bound : bound mass_value.
Proof.
  exists 2. intros m (x & Hx & Hm). rewrite Hm. now apply gauss_mass_bound.
Qed.

Lemma mass_value_inhabited : exists m, mass_value m.
Proof. exists (gauss_mass 0), 0. split; [lra | reflexivity]. Qed.

Lemma gauss_mass_le_half_mass (x : R) : 0 <= x -> gauss_mass x <= half_mass.
Proof.
  intros Hx.
  destruct (supremum_lub mass_value mass_value_bound mass_value_inhabited)
    as [Hub _].
  apply Hub. now exists x.
Qed.

Lemma half_mass_pos : 0 < half_mass.
Proof.
  apply Rlt_le_trans with (gauss_mass 1).
  - rewrite <- gauss_mass_0. apply gauss_mass_increasing; lra.
  - apply gauss_mass_le_half_mass. lra.
Qed.

(** On the non-negative half line the distribution function takes its
    values in [[1/2, 1]] and is strictly increasing. *)
Lemma normal_cdf_nonneg (z : R) : 0 <= z -> 1 / 2 <= cdf z <= 1.
Proof.
  intros Hz. unfold cdf. destruct (Rle_dec 0 z) as [_ | Hn]; [| contradiction].
  pose proof half_mass_pos as HZ.
  pose proof (gauss_mass_bound z Hz) as [H0 _].
  pose proof (gauss_mass_le_half_mass z Hz) as Hle.
  assert (Hq : 0 <= gauss_mass z / (2 * half_mass) <= 1 / 2).
  { split.
    - apply Rmult_le_pos; [exact H0 |]. left. apply Rinv_0_lt_compat. lra.
    - apply Rmult_le_reg_r with (2 * half_mass); [lra |].
      unfold Rdiv. rewrite Rmult_assoc, Rinv_l by lra. lra. }
  lra.
Qed.

Lemma normal_cdf_increasing (u v : R) :
  0 <= u -> u < v -> cdf u < cdf v.
Proof.
  intros Hu Huv. unfold cdf.
  destruct (Rle_dec 0 u) as [_ | Hn]; [| contradiction].
  destruct (Rle_dec 0 v) as [_ | Hn]; [| lra].
  pose proof half_mass_pos as HZ.
  pose proof (gauss_mass_increasing u v Hu Huv) as Hm.
  assert (0 < / (2 * half_mass)) by (apply Rinv_0_lt_compat; lra).
  unfold Rdiv. nra.
Qed.

End NormalFacts.

(* ================================================================== *)
(** ** The Taylor accumulation *)
(* ================================================================== *)

Section TaylorFacts.
Context {AD : Differentiation}.
Import NNFeatures.

Lemma taylor_fold (k : nat) :
  let s := fold_left taylor_body (seq 1 k) taylor_init in
  d s = Nat.iter k grad sqrt /\
  factorial s = fact k /\
  approx_total s = 7 + Jnp.vsum (map accumulated_term (seq 1 k)).
Proof.
  induction k as [| k IH]; cbn zeta.
  - simpl. repeat split. lra.
  - rewrite seq_S, fold_left_app. cbn [fold_left].
    cbn zeta in IH. destruct IH as (Hd & Hf & Ha).
    set (s := fold_left taylor_body (seq 1 k) taylor_init) in *.
    unfold taylor_body. cbn [d factorial approx_total].
    rewrite Hd, Hf, Ha. repeat split.
    + cbn [fact Nat.add]. lia.
    + rewrite map_app, vsum_app. cbn [map Jnp.vsum fold_right Nat.add].
      change (accumulated_term (S k))
        with (grad (Nat.iter k grad sqrt) 49 * IZR ((-6) ^ Z.of_nat (S k)) /
              INR (fact (S k - 1))).
      replace (S k - 1)%nat with k by lia. lra.
Qed.

(** What the loop holds after each of its five iterations. *)
Lemma taylor_after_closed_form (k : nat) :
  (k <= highest_order)%nat ->
  approx_total (taylor_after k) = 7 + Jnp.vsum (map accumulated_term (seq 1 k)).
Proof.
  intros Hk. unfold taylor_after.
  replace (firstn k (seq 1 highest_order)) with (seq 1 k).
  - apply (taylor_fold k).
  - unfold highest_order in *.
    do 6 (destruct k as [| k]; [reflexivity |]). lia.
Qed.

End TaylorFacts.

(** Under exact differentiation every term of the expansion is negative:
    the signs of the derivative and of [(-6)^i] alternate in step. *)
Lemma half_falling_signed (i : nat) :
  half_falling (S i) * IZR ((-6) ^ Z.of_nat (S i)) < 0.
Proof.
  induction i as [| i IH].
  - cbn. lra.
  - replace (half_falling (S (S i)) * IZR ((-6) ^ Z.of_nat (S (S i))))
      with (half_falling (S i) * IZR ((-6) ^ Z.of_nat (S i))
            * (6 * INR (S i) - 3)).
    + assert (H1 : 1 <= INR (S i)).
      { rewrite S_INR. pose proof (pos_INR i). lra. }
      nra.
    + cbn [half_falling].
      replace (Z.of_nat (S (S i))) with (Z.succ (Z.of_nat (S i))) by lia.
      rewrite Z.pow_succ_r by lia. rewrite mult_IZR. field.
Qed.

Lemma exact_term_negative (i : nat) :
  Nat.iter (S i) (@grad exact_diff) NNFeatures.sqrt 49
  * IZR ((-6) ^ Z.of_nat (S i)) < 0.
Proof.
  change (@grad exact_diff) with Autodiff.grad.
  rewrite iter_grad_sqrt by lra.
  assert (Hp : 0 < Rpower 49 (1 / 2 - INR (S i))) by apply exp_pos.
  pose proof (half_falling_signed i) as Hs. nra.
Qed.

(** From the second iteration on, what the loop has accumulated is below
    the Taylor polynomial of the same degree. *)
Lemma taylor_loop_below_polynomial (k : nat) :
  (2 <= k <= NNFeatures.highest_order)%nat ->
  NNFeatures.approx_total (@NNFeatures.taylor_after exact_diff k)
  < @taylor_polynomial exact_diff k.
Proof.
  intros [H2 H5]. rewrite taylor_after_closed_form by exact H5.
  unfold taylor_polynomial. apply Rplus_lt_compat_l.
  clear H5. destruct k as [| [| k]]; try lia. clear H2.
  induction k as [| k IH].
  - cbn [seq map Jnp.vsum fold_right].
    unfold accumulated_term, taylor_term.
    pose proof (exact_term_negative 1) as Hneg.
    rewrite exact_d1_49 in *. cbn [fact Nat.sub Nat.mul Nat.add INR] in *.
    lra.
  - rewrite seq_S, !map_app, !vsum_app. cbn [map Jnp.vsum fold_right Nat.add].
    apply Rplus_lt_compat; [exact IH |]. apply Rplus_lt_compat_r.
    unfold accumulated_term, taylor_term.
    pose proof (exact_term_negative (S (S k))) as Hneg.
    replace (S (S (S k)) - 1)%nat with (S (S k)) by lia.
    assert (Hf : 0 < INR (fact (S (S k)))) by (apply lt_0_INR, lt_O_fact).
    assert (Hlt : INR (fact (S (S k))) < INR (fact (S (S (S k))))).
    { apply lt_INR. pose proof (lt_O_fact (S (S k))).
      change (fact (S (S (S k)))) with (S (S (S k)) * fact (S (S k)))%nat.
      nia. }
    assert (Hinv : / INR (fact (S (S (S k)))) < / INR (fact (S (S k)))).
    { apply Rinv_lt_contravar; [| exact Hlt]. apply Rmult_lt_0_compat; lra. }
    unfold Rdiv. nra.
Qed.

(** C9, evaluated at the second iteration: the loop divides the second
    derivative term by 1 (the value of [factorial] before its update), the
    degree-2 Taylor polynomial divides it by 2!, and the two values differ.
    The loop's value, 6.545189..., is the second value the notebook
    prints. *)
Theorem taylor_second_iteration_lags :
  NNFeatures.approx_total (@NNFeatures.taylor_after exact_diff 2)
    = 7 - 6 / 14 - 36 / 1372 /\
  @taylor_polynomial exact_diff 2 = 7 - 6 / 14 - 18 / 1372 /\
  NNFeatures.approx_total (@NNFeatures.taylor_after exact_diff 2)
    <> @taylor_polynomial exact_diff 2.
Proof.
  assert (H1 : NNFeatures.approx_total (@NNFeatures.taylor_after exact_diff 2)
               = 7 - 6 / 14 - 36 / 1372).
  { rewrite taylor_after_closed_form by (unfold NNFeatures.highest_order; lia).
    cbn [seq map Jnp.vsum fold_right]. unfold accumulated_term.
    rewrite exact_d1_49, exact_d2_49. simpl. lra. }
  assert (H2 : @taylor_polynomial exact_diff 2 = 7 - 6 / 14 - 18 / 1372).
  { unfold taylor_polynomial.
    cbn [seq map Jnp.vsum fold_right]. unfold taylor_term.
    rewrite exact_d1_49, exact_d2_49. simpl. lra. }
  split; [exact H1 | split; [exact H2 |]].
  rewrite H1, H2. lra.
Qed.

(* ================================================================== *)
(** ** Full-batch gradient descent *)
(* ================================================================== *)

Section FullBatchFacts.
Context {AD : Differentiation} {RNG : Sampler}.
Import Jnp NNFeatures.

Lemma epoch_start_S (lr : R) (k : nat) (e : Env) :
  epoch_start lr (S k) e = next_epoch (epoch_end lr k e).
Proof. reflexivity. Qed.

Lemma epoch_start_shift (lr : R) (k : nat) (e : Env) :
  epoch_start lr (S k) e = epoch_start lr k (next_epoch (full_batch_body lr e)).
Proof.
  exact (Nat.iter_succ_r k _ (fun s => next_epoch (full_batch_body lr s)) e).
Qed.

Lemma epoch_start_data (lr : R) (k : nat) (e : Env) :
  X (epoch_start lr k e) = X e /\ y (epoch_start lr k e) = y e /\
  epoch (epoch_start lr k e) = (epoch e + k)%nat.
Proof.
  induction k as [| k IH].
  - cbn. repeat split; lia.
  - rewrite epoch_start_S. unfold epoch_end. cbn.
    destruct IH as (-> & -> & ->). repeat split; lia.
Qed.

(** C1. In every epoch [k] of the full-batch loop: [loss_val] is the mean of
    the squared entries of [X . W + b - y] at the parameters the epoch
    starts with, the gradient pair is the oracle applied to [loss] at those
    parameters and the unchanged data, and the epoch leaves
    [W - learning_rate * gradW] and [b - learning_rate * gradb]. *)
Theorem full_batch_epoch_update (learning_rate : R) (e : Env) (k : nat) :
  let s := epoch_start learning_rate k e in
  let s' := epoch_end learning_rate k e in
  let gradW := fst (grad01 loss (W s) (b s) (X e) (y e)) in
  let gradb := snd (grad01 loss (W s) (b s) (X e) (y e)) in
  loss_val s'
  = mean (msquare (msub (add_bias (dot (X e) (W s)) (b s)) (y e))) /\
  W s' = msub (W s) (mscal learning_rate gradW) /\
  b s' = vsub (b s) (vscal learning_rate gradb) /\
  W (epoch_start learning_rate (S k) e) = W s' /\
  b (epoch_start learning_rate (S k) e) = b s'.
Proof.
  cbn zeta. rewrite epoch_start_S. unfold epoch_end.
  destruct (epoch_start_data learning_rate k e) as (HX & Hy & _).
  cbn. rewrite HX, Hy. repeat split.
Qed.

Lemma converged_epoch_end (lr tol : R) (e : Env) (k : nat) :
  converged tol (epoch_end lr k e) = true <-> stops_at lr tol e k.
Proof.
  unfold converged, stops_at, epoch_end. cbn.
  rewrite andb_true_iff, !ltb_true. reflexivity.
Qed.

Lemma epoch_end_shift (lr : R) (k : nat) (e : Env) :
  epoch_end lr (S k) e = epoch_end lr k (next_epoch (full_batch_body lr e)).
Proof. unfold epoch_end. now rewrite epoch_start_shift. Qed.

Lemma stops_at_shift (lr tol : R) (k : nat) (e : Env) :
  stops_at lr tol e (S k) <->
  stops_at lr tol (next_epoch (full_batch_body lr e)) k.
Proof. now rewrite <- !converged_epoch_end, epoch_end_shift. Qed.

Lemma fit_full_batch_some (lr tol : R) (fuel : nat) :
  forall e e',
    fit_full_batch lr tol fuel e = Some e' <->
    exists k, (k < fuel)%nat /\ e' = epoch_end lr k e /\
              stops_at lr tol e k /\
              forall j, (j < k)%nat -> ~ stops_at lr tol e j.
Proof.
  induction fuel as [| fuel IH]; intros e e'.
  - cbn. split; [discriminate | intros (k & Hk & _); lia].
  - cbn [fit_full_batch]. cbn zeta.
    destruct (converged tol (full_batch_body lr e)) eqn:Hc.
    + change (full_batch_body lr e) with (epoch_end lr 0 e) in Hc.
      split.
      * intros [= <-]. exists 0%nat.
        split; [lia | split; [reflexivity | split]].
        -- now apply converged_epoch_end.
        -- intros j Hj; lia.
      * intros (k & _ & -> & Hk & Hmin).
        destruct k as [| k]; [reflexivity |].
        exfalso. apply (Hmin 0%nat); [lia |].
        now apply converged_epoch_end.
    + change (full_batch_body lr e) with (epoch_end lr 0 e) in Hc.
      assert (H0 : ~ stops_at lr tol e 0).
      { rewrite <- converged_epoch_end, Hc. discriminate. }
      rewrite IH. split.
      * intros (k & Hk & -> & Hs & Hmin). exists (S k).
        split; [lia | split; [| split]].
        -- now rewrite epoch_end_shift.
        -- now apply stops_at_shift.
        -- intros [| j] Hj; [exact H0 |].
           rewrite stops_at_shift. apply Hmin. lia.
      * intros (k & Hk & -> & Hs & Hmin).
        destruct k as [| k]; [contradiction |].
        exists k. split; [lia | split; [| split]].
        -- now rewrite epoch_end_shift.
        -- now apply stops_at_shift.
        -- intros j Hj. rewrite <- stops_at_shift. apply Hmin. lia.
Qed.

(** C2. The loop returns exactly at the first epoch whose update moved both
    [W] and [b] by less than the tolerance (any larger number of allowed
    epochs gives that same result); it has no other exit: when no epoch
    meets the test, it is still running after any number of epochs. *)
Theorem fit_full_batch_stops_exactly (learning_rate tolerance : R) (e : Env) :
  (forall k,
      stops_at learning_rate tolerance e k ->
      (forall j, (j < k)%nat -> ~ stops_at learning_rate tolerance e j) ->
      forall fuel, (k < fuel)%nat ->
        fit_full_batch learning_rate tolerance fuel e
        = Some (epoch_end learning_rate k e)) /\
  (forall fuel e',
      fit_full_batch learning_rate tolerance fuel e = Some e' ->
      exists k, (k < fuel)%nat /\ e' = epoch_end learning_rate k e /\
                stops_at learning_rate tolerance e k /\
                forall j, (j < k)%nat ->
                          ~ stops_at learning_rate tolerance e j) /\
  ((forall k, ~ stops_at learning_rate tolerance e k) ->
   forall fuel, fit_full_batch learning_rate tolerance fuel e = None).
Proof.
  split; [| split].
  - intros k Hk Hmin fuel Hlt. apply fit_full_batch_some.
    exists k. split; [assumption | split; [reflexivity | split; assumption]].
  - intros fuel e' H. now apply fit_full_batch_some.
  - intros Hnever fuel.
    destruct (fit_full_batch learning_rate tolerance fuel e) as [e' |] eqn:H;
      [| reflexivity].
    apply fit_full_batch_some in H. destruct H as (k & _ & _ & Hk & _).
    now apply Hnever in Hk.
Qed.

End FullBatchFacts.

(** *** Two runs on one sample with one feature *)

Section SingleSample.
Import Jnp NNFeatures.
#[local] Existing Instance exact_diff.
#[local] Existing Instance seeded_sampler.

Lemma full_batch_body_single (lr x t w c : R) (s : Env) :
  X s = [[x]] -> y s = [[t]] -> W s = [[w]] -> b s = [c] ->
  W (full_batch_body lr s) = [[w - lr * (2 * x * (x * w + c - t))]] /\
  b (full_batch_body lr s) = [c - lr * (2 * (x * w + c - t))].
Proof.
  intros HX Hy HW Hb. unfold full_batch_body. cbn [W b].
  rewrite HX, Hy, HW, Hb, exact_grad01_single. cbn. split; reflexivity.
Qed.

(** Started from the sample (20, 0) with [W = [[1]]], [b = [0]] and the
    cell's learning rate 0.01, the residual [20 w + c] is multiplied by
    -7.02 in every epoch. *)
Lemma diverging_residual (k : nat) :
  let s := @epoch_start exact_diff seeded_sampler (1 / 100) k
             (single_env 20 0 1 0) in
  exists w c, W s = [[w]] /\ b s = [c] /\ 1 <= Rabs (20 * w + c).
Proof.
  induction k as [| k IH]; cbn zeta.
  - exists 1, 0. cbn. repeat split.
    rewrite Rabs_pos_eq; lra.
  - cbn zeta in IH. destruct IH as (w & c & HW & Hb & Hr).
    rewrite epoch_start_S. unfold epoch_end.
    destruct (epoch_start_data (1 / 100) k (single_env 20 0 1 0))
      as (HX & Hy & _).
    destruct (full_batch_body_single (1 / 100) 20 0 w c _ HX Hy HW Hb)
      as (HW' & Hb').
    cbn [W b next_epoch]. rewrite HW', Hb'.
    eexists _, _. split; [reflexivity | split; [reflexivity |]].
    replace (20 * (w - 1 / 100 * (2 * 20 * (20 * w + c - 0))) +
             (c - 1 / 100 * (2 * (20 * w + c - 0))))
      with (- (702 / 100) * (20 * w + c)) by field.
    rewrite Rabs_mult, Rabs_Ropp, (Rabs_pos_eq (702 / 100)) by lra.
    lra.
Qed.

Lemma diverging_never_stops (k : nat) :
  ~ @stops_at exact_diff seeded_sampler (1 / 100) (1 / 100000)
      (single_env 20 0 1 0) k.
Proof.
  unfold stops_at; cbn zeta. intros [HdW _].
  destruct (diverging_residual k) as (w & c & HW & Hb & Hr).
  destruct (epoch_start_data (1 / 100) k (single_env 20 0 1 0))
    as (HX & Hy & _).
  destruct (full_batch_body_single (1 / 100) 20 0 w c _ HX Hy HW Hb)
    as (HW' & _).
  unfold epoch_end in HdW. rewrite HW', HW in HdW.
  cbn in HdW. change (Jnp.mnorm ?m) with (mnorm m) in HdW.
  rewrite mnorm_single in HdW.
  replace (w - 1 / 100 * (2 * 20 * (20 * w + c - 0)) - w)
    with (- (4 / 10) * (20 * w + c)) in HdW by field.
  rewrite Rabs_mult, Rabs_Ropp, (Rabs_pos_eq (4 / 10)) in HdW by lra.
  lra.
Qed.

(** Started at the least-squares solution of the sample (1, 1), the first
    epoch changes nothing and the test holds at once. *)
Lemma optimum_stops_at_once :
  @stops_at exact_diff seeded_sampler (1 / 100) (1 / 100000)
    (single_env 1 1 1 0) 0.
Proof.
  unfold stops_at; cbn zeta. unfold epoch_end, epoch_start.
  cbn [Nat.iter nat_rect].
  destruct (full_batch_body_single (1 / 100) 1 1 1 0 (single_env 1 1 1 0)
              eq_refl eq_refl eq_refl eq_refl) as (HW' & Hb').
  rewrite HW', Hb'. cbn.
  change (sqrt ?x) with (R_sqrt.sqrt x).
  split.
  - change (mnorm [[1 - 1 / 100 * (2 * 1 * (1 * 1 + 0 - 1)) - 1]] < 1 / 100000).
    rewrite mnorm_single.
    replace (1 - 1 / 100 * (2 * 1 * (1 * 1 + 0 - 1)) - 1) with 0 by field.
    rewrite Rabs_R0. lra.
  - change (vnorm [0 - 1 / 100 * (2 * (1 * 1 + 0 - 1)) - 0] < 1 / 100000).
    rewrite vnorm_single.
    replace (0 - 1 / 100 * (2 * (1 * 1 + 0 - 1)) - 0) with 0 by field.
    rewrite Rabs_R0. lra.
Qed.

(** The full-batch cell itself, on the sample (20, 0): still running
    after any number of epochs. *)
Lemma full_batch_cell_runs_on (fuel : nat) :
  full_batch_cell fuel (single_env 20 0 1 0) = None.
Proof.
  unfold full_batch_cell.
  change (restart (single_env 20 0 1 0)) with (single_env 20 0 1 0).
  destruct (fit_full_batch _ _ fuel _) as [e' |] eqn:H; [| reflexivity].
  apply fit_full_batch_some in H. destruct H as (k & _ & _ & Hk & _).
  now apply diverging_never_stops in Hk.
Qed.

End SingleSample.

(** Witness of C2: the run from the optimum returns at epoch 0 for any
    allowance above it, the run on the sample (20, 0) is still going after
    a thousand epochs. *)
Lemma fit_full_batch_stops_exactly_witness :
  @NNFeatures.fit_full_batch exact_diff seeded_sampler (1 / 100) (1 / 100000) 3
      (single_env 1 1 1 0)
    = Some (@epoch_end exact_diff seeded_sampler (1 / 100) 0
              (single_env 1 1 1 0)) /\
  @NNFeatures.fit_full_batch exact_diff seeded_sampler (1 / 100) (1 / 100000)
      1000
      (single_env 20 0 1 0) = None.
Proof.
  split.
  - apply (proj1 (fit_full_batch_stops_exactly (1 / 100) (1 / 100000)
                    (single_env 1 1 1 0)) 0%nat).
    + exact optimum_stops_at_once.
    + intros j Hj. inversion Hj.
    + repeat constructor.
  - apply (proj2 (proj2 (fit_full_batch_stops_exactly (1 / 100) (1 / 100000)
                           (single_env 20 0 1 0)))).
    exact diverging_never_stops.
Defined.


(* ================================================================== *)
(** ** Mini-batch gradient descent *)
(* ================================================================== *)

Section MiniBatchFacts.
Context {AD : Differentiation} {RNG : Sampler}.
Import Jnp NNFeatures.

Lemma batches_of_all (indices : list (list nat)) :
  batches_of indices (length indices) = indices.
Proof.
  unfold batches_of.
  apply nth_ext with (d := []) (d' := []).
  - now rewrite length_map, length_seq.
  - intros n Hn. rewrite length_map, length_seq in Hn.
    rewrite (nth_indep _ [] (nth 0 indices []))
      by now rewrite length_map, length_seq.
    rewrite (map_nth (fun i => nth i indices []) (seq 0 (length indices))
               0%nat n).
    now rewrite seq_nth.
Qed.

Lemma batch_step_fold (lr : R) (bs : nat) (batches : list (list nat)) :
  forall e,
    let e' := fold_left (batch_step lr bs) batches e in
    (W e', b e')
    = fold_left (sgd_update lr bs (X e) (y e)) batches (W e, b e) /\
    X e' = X e /\ y e' = y e /\ epoch e' = epoch e /\ stdout e' = stdout e.
Proof.
  induction batches as [| idx batches IH]; intros e; cbn zeta.
  - cbn. repeat split.
  - cbn [fold_left].
    specialize (IH (batch_step lr bs e idx)). cbn zeta in IH.
    destruct IH as (Hp & HX & Hy & He & Hs).
    rewrite Hp, HX, Hy, He, Hs. cbn [batch_step X y W b epoch stdout].
    repeat split. f_equal. unfold sgd_update. cbn [fst snd].
    now rewrite mdivs_mscal, vdivs_vscal.
Qed.

(** C4. In every epoch the loop uses exactly the [num_batches] rows of the
    sampled index array, in order; every row holds [batch_size] indices
    into [[0, N)] (repetitions are kept: a batch has [batch_size] rows);
    and the parameters the epoch leaves are those obtained by applying the
    per-batch updates one after the other, each gradient being taken at the
    parameters left by the previous batch and divided by [batch_size]. *)
Theorem minibatch_epoch_batches (learning_rate : R)
  (batch_size num_batches : nat) (e : Env) :
  sampler_contract ->
  (0 < length (X e))%nat ->
  let batches :=
    batches_of (epoch_indices batch_size num_batches e) num_batches in
  let e' := minibatch_body learning_rate batch_size num_batches e in
  batches
  = randint (PRNGKey (epoch e)) num_batches batch_size 0 (length (X e)) /\
  length batches = num_batches /\
  Forall (fun idx => length idx = batch_size /\
                     length (take_rows (X e) idx) = batch_size /\
                     Forall (fun i => (i < length (X e))%nat) idx) batches /\
  (W e', b e') =
    fold_left (sgd_update learning_rate batch_size (X e) (y e)) batches
              (W e, b e).
Proof.
  intros Hc HN. cbn zeta.
  destruct (Hc (PRNGKey (epoch e)) num_batches batch_size 0%nat
              (length (X e)) HN)
    as (Hlen & Hrows).
  assert (Hb : batches_of (epoch_indices batch_size num_batches e) num_batches
               = epoch_indices batch_size num_batches e).
  { unfold epoch_indices. rewrite <- Hlen at 2. apply batches_of_all. }
  rewrite Hb. unfold epoch_indices at 1 2 3.
  split; [reflexivity | split; [exact Hlen | split]].
  - eapply Forall_impl; [| exact Hrows].
    intros idx (Hl & Hin). split; [exact Hl | split].
    + unfold take_rows. now rewrite length_map.
    + eapply Forall_impl; [| exact Hin]. intros i Hi. cbv beta in *. lia.
  - unfold minibatch_body. cbn [W b].
    fold (epoch_indices batch_size num_batches e). rewrite Hb.
    match goal with
    | |- context [fold_left (batch_step _ _) _ ?e0] =>
        destruct (batch_step_fold learning_rate batch_size
                    (epoch_indices batch_size num_batches e) e0) as (Hp & _)
    end.
    exact Hp.
Qed.


Lemma batches_of_length (indices : list (list nat)) (n : nat) :
  length (batches_of indices n) = n.
Proof. unfold batches_of. now rewrite length_map, length_seq. Qed.


Lemma batch_step_same (lr : R) (bs : nat) (idx : list nat) (e1 e2 : Env) :
  same_inputs e1 e2 -> key e1 = key e2 ->
  minibatch_loss e1 = minibatch_loss e2 ->
  batch_step lr bs e1 idx = batch_step lr bs e2 idx.
Proof.
  intros (HX & Hy & HW & Hb & He & Hs) Hk Hm. unfold batch_step.
  now rewrite HX, Hy, HW, Hb, He, Hs, Hk, Hm.
Qed.

Lemma minibatch_body_same (lr : R) (bs n : nat) (e1 e2 : Env) :
  same_inputs e1 e2 ->
  minibatch_body lr bs (S n) e1 = minibatch_body lr bs (S n) e2.
Proof.
  intros Hsame. pose proof Hsame as (HX & Hy & HW & Hb & He & Hs).
  unfold minibatch_body. rewrite HX, He.
  unfold batches_of. cbn [seq map fold_left].
  match goal with
  | |- context [batch_step lr bs ?a ?i] =>
      match goal with
      | |- context [batch_step lr bs ?c i] =>
          assert_fails (constr_eq a c);
          replace (batch_step lr bs a i) with (batch_step lr bs c i)
      end
  end.
  - reflexivity.
  - apply batch_step_same; cbn; try reflexivity.
    repeat split; cbn; congruence.
Qed.

Lemma fit_minibatch_same (lr : R) (bs n : nat) (tol : R) (fuel : nat)
  (e1 e2 : Env) :
  same_inputs e1 e2 ->
  fit_minibatch lr bs (S n) tol fuel e1 = fit_minibatch lr bs (S n) tol fuel e2.
Proof.
  intros Hsame. destruct fuel as [| fuel]; [reflexivity |].
  cbn [fit_minibatch]. cbn zeta.
  now rewrite (minibatch_body_same lr bs n e1 e2 Hsame).
Qed.

(** The cell sets [epoch = 0] itself: its result only depends on the data
    and on the parameters it starts from. *)
Lemma minibatch_cell_same (fuel : nat) (e1 e2 : Env) :
  X e1 = X e2 -> y e1 = y e2 -> W e1 = W e2 -> b e1 = b e2 ->
  minibatch_cell fuel e1 = minibatch_cell fuel e2.
Proof.
  intros HX Hy HW Hb. unfold minibatch_cell.
  apply fit_minibatch_same. repeat split; assumption.
Qed.

(** C7. Every key of a run is derived from the epoch counter, so with that
    seed fixed two runs on the same data from the same parameters give the
    same result: both are still running after [fuel] epochs, or both have
    stopped with the same variables (the final [W] and [b] and the printed
    loss trace among them), whatever else the two notebooks held before. *)
Theorem fit_minibatch_deterministic (learning_rate : R)
  (batch_size n : nat) (tolerance : R) (fuel : nat) (e1 e2 : Env) :
  same_inputs e1 e2 ->
  fit_minibatch learning_rate batch_size (S n) tolerance fuel e1 =
  fit_minibatch learning_rate batch_size (S n) tolerance fuel e2.
Proof. apply fit_minibatch_same. Qed.

End MiniBatchFacts.

(* ================================================================== *)
(** ** p-values of the coefficients *)
(* ================================================================== *)

Section PValueFacts.
Context {ST : Stats}.
Import Jnp NNFeatures.



Lemma hstack_ones (n : nat) (X : Mat) :
  length X = n -> hstack (ones n) X = Returned (map (cons 1) X).
Proof.
  intros <-. unfold hstack, ones. rewrite repeat_length, Nat.eqb_refl.
  f_equal. unfold map2. induction X as [| r X IH]; [reflexivity |].
  cbn. now rewrite IH.
Qed.

Lemma hstack_ones_mismatch (n : nat) (X : Mat) :
  length X <> n -> hstack (ones n) X = Raised ShapeError.
Proof.
  intros H. unfold hstack, ones. rewrite repeat_length.
  destruct (Nat.eqb_spec n (length X)); [congruence | reflexivity].
Qed.

(** With another number of rows than the cell writes, the cell raises. *)
Lemma coefficient_p_values_wrong_rows (n : nat) (W : Mat) (b : Vec)
  (sigma2 : R) (X : Mat) :
  length X <> n -> coefficient_p_values n W b sigma2 X = Raised ShapeError.
Proof.
  intros H. unfold coefficient_p_values.
  now rewrite (hstack_ones_mismatch n X H).
Qed.

Lemma length_W_std_of (sigma2 : R) (vals : Vec) (vecs : Mat) :
  length (diagv (W_std_of sigma2 vals vecs)) = length vecs.
Proof.
  unfold W_std_of, mscal. now rewrite length_diagv, !length_dot, length_map.
Qed.

Lemma coefficient_p_values_returns (n : nat) (W : Mat) (b : Vec)
  (sigma2 : R) (X : Mat) (b0 w0 w1 : R) :
  well_shaped n W b sigma2 X b0 w0 w1 ->
  coefficient_p_values n W b sigma2 X
  = Returned (map2 p_value [b0; w0; w1] (diagv (W_std sigma2 X))).
Proof.
  intros (Hn & Hb & Hw0 & Hw1 & Hv).
  unfold coefficient_p_values.
  rewrite (hstack_ones n X Hn), Hb, Hw0, Hw1. cbn [bind].
  fold (augmented X). fold (scaled_gram sigma2 X). fold (W_std sigma2 X).
  unfold bdiv.
  assert (Hlen : length (diagv (W_std sigma2 X)) = 3%nat).
  { unfold W_std. now rewrite length_W_std_of. }
  cbn [length map]. rewrite Hlen. cbn [Nat.eqb bind].
  f_equal. destruct (diagv (W_std sigma2 X)) as [| d0 [| d1 [| d2 [| ? ?]]]];
    try discriminate.
  reflexivity.
Qed.

(** C3, as the cell computes it.  On inputs of the right shape the cell
    takes the eigendecomposition of [(1/sigma2) * X_.T . X_] with [X_] the
    data with a leading column of ones, builds
    [sigma2 * V . diag(1/sqrt(eigenvalues)) . V.T], and returns for the
    intercept and the two weights, in this order,
    [2 * (1 - cdf(|coefficient| / diagonal entry))]: the diagonal entry
    itself, not its square root. *)
Theorem coefficient_p_values_formula (n : nat) (W : Mat) (b : Vec)
  (sigma2 : R) (X : Mat) (b0 w0 w1 : R) :
  well_shaped n W b sigma2 X b0 w0 w1 ->
  let X_ := map (cons 1) X in
  let S := mscal (1 / sigma2) (dot (transpose X_) X_) in
  let V := snd (eigh S) in
  let D := diagm (map (fun l => 1 / R_sqrt.sqrt l) (fst (eigh S))) in
  let covariance_like := dot (dot (mscal sigma2 V) D) (transpose V) in
  exists v0 v1 v2,
    diagv covariance_like = [v0; v1; v2] /\
    coefficient_p_values n W b sigma2 X
    = Returned [2 * (1 - norm_cdf (Rabs b0 / v0));
                2 * (1 - norm_cdf (Rabs w0 / v1));
                2 * (1 - norm_cdf (Rabs w1 / v2))].
Proof.
  intros Hshape. cbn zeta.
  rewrite (coefficient_p_values_returns _ _ _ _ _ _ _ _ Hshape).
  destruct Hshape as (_ & _ & _ & _ & Hv).
  pose proof (length_W_std_of sigma2 (fst (eigh (scaled_gram sigma2 X)))
                (snd (eigh (scaled_gram sigma2 X)))) as Hlen.
  rewrite Hv in Hlen. fold (W_std sigma2 X) in Hlen.
  change (dot (dot (mscal sigma2 (snd (eigh (mscal (1 / sigma2)
            (dot (transpose (map (cons 1) X)) (map (cons 1) X))))))
            (diagm (map (fun l => 1 / R_sqrt.sqrt l)
               (fst (eigh (mscal (1 / sigma2)
                  (dot (transpose (map (cons 1) X)) (map (cons 1) X))))))))
            (transpose (snd (eigh (mscal (1 / sigma2)
               (dot (transpose (map (cons 1) X)) (map (cons 1) X)))))))
    with (W_std sigma2 X).
  destruct (diagv (W_std sigma2 X)) as [| v0 [| v1 [| v2 [| ? ?]]]];
    try discriminate.
  exists v0, v1, v2. split; reflexivity.
Qed.


Lemma vdot_ones (X : Mat) :
  vdot (map (fun _ => 1) X) (map (fun _ => 1) X) = INR (length X).
Proof.
  unfold vdot, map2. induction X as [| r X IH]; [reflexivity |].
  cbn [map combine fst snd vsum fold_right length].
  change (fold_right Rplus 0 ?l) with (vsum l). rewrite IH, S_INR. lra.
Qed.

Lemma col0_augmented (X : Mat) : col 0 (augmented X) = map (fun _ => 1) X.
Proof. unfold col, augmented. rewrite map_map. reflexivity. Qed.

(** The first entry of the scaled Gram matrix is [n / sigma2]. *)
Lemma scaled_gram_00 (sigma2 : R) (X : Mat) :
  augmented X <> [] ->
  nth 0 (nth 0 (scaled_gram sigma2 X) []) 0 = 1 / sigma2 * INR (length X).
Proof.
  intros Hne. unfold scaled_gram, mscal, dot, transpose.
  destruct X as [| r X]; [now cbn in Hne |].
  cbn [augmented map ncols hd length seq nth vscal].
  change (map (cons 1) X) with (augmented X).
  change ((1 :: r) :: augmented X) with (augmented (r :: X)).
  rewrite col0_augmented, vdot_ones. reflexivity.
Qed.

Lemma weighted_squares_pos (a c d r1 r2 r3 : R) :
  a * a + c * c + d * d = 1 -> 0 < r1 -> 0 < r2 -> 0 < r3 ->
  0 < a * a * r1 + c * c * r2 + d * d * r3.
Proof.
  intros Hn H1 H2 H3.
  assert (Ha : 0 <= a * a) by nra.
  assert (Hc : 0 <= c * c) by nra.
  assert (Hd : 0 <= d * d) by nra.
  destruct (Rle_lt_or_eq_dec _ _ Ha) as [Hpos | Hz].
  - assert (0 < a * a * r1) by now apply Rmult_lt_0_compat.
    assert (0 <= c * c * r2) by (apply Rmult_le_pos; lra).
    assert (0 <= d * d * r3) by (apply Rmult_le_pos; lra). lra.
  - destruct (Rle_lt_or_eq_dec _ _ Hc) as [Hpos | Hz'].
    + assert (0 < c * c * r2) by now apply Rmult_lt_0_compat.
      assert (0 <= d * d * r3) by (apply Rmult_le_pos; lra).
      rewrite <- Hz. lra.
    + assert (Hd1 : d * d = 1) by lra.
      rewrite <- Hz, <- Hz', Hd1. lra.
Qed.

Section ThreeByThree.
Variables a11 a12 a13 a21 a22 a23 a31 a32 a33 : R.

Lemma W_std_diag_3 (sigma2 l1 l2 l3 : R) :
  diagv (W_std_of sigma2 [l1; l2; l3]
           [[a11; a12; a13]; [a21; a22; a23]; [a31; a32; a33]])
  = [sigma2 * (a11 * a11 * (1 / R_sqrt.sqrt l1) +
               a12 * a12 * (1 / R_sqrt.sqrt l2) +
               a13 * a13 * (1 / R_sqrt.sqrt l3));
     sigma2 * (a21 * a21 * (1 / R_sqrt.sqrt l1) +
               a22 * a22 * (1 / R_sqrt.sqrt l2) +
               a23 * a23 * (1 / R_sqrt.sqrt l3));
     sigma2 * (a31 * a31 * (1 / R_sqrt.sqrt l1) +
               a32 * a32 * (1 / R_sqrt.sqrt l2) +
               a33 * a33 * (1 / R_sqrt.sqrt l3))].
Proof.
  unfold W_std_of, diagv, dot, transpose, mscal, vscal, diagm, col, ncols,
    vdot, map2, vsum.
  cbn. f_equal; [| f_equal; [| f_equal]]; ring.
Qed.

Lemma decomposition_entry_00 (l1 l2 l3 : R) :
  nth 0 (nth 0 (dot (dot [[a11; a12; a13]; [a21; a22; a23]; [a31; a32; a33]]
                         (diagm [l1; l2; l3]))
                    (transpose [[a11; a12; a13]; [a21; a22; a23];
                                [a31; a32; a33]])) []) 0
  = a11 * a11 * l1 + a12 * a12 * l2 + a13 * a13 * l3.
Proof.
  unfold dot, transpose, diagm, col, ncols, vdot, map2, vsum.
  cbn. ring.
Qed.

Lemma orthonormal_rows :
  dot [[a11; a12; a13]; [a21; a22; a23]; [a31; a32; a33]]
      (transpose [[a11; a12; a13]; [a21; a22; a23]; [a31; a32; a33]])
  = identity 3 ->
  a11 * a11 + a12 * a12 + a13 * a13 = 1 /\
  a21 * a21 + a22 * a22 + a23 * a23 = 1 /\
  a31 * a31 + a32 * a32 + a33 * a33 = 1.
Proof.
  unfold identity, dot, transpose, diagm, col, ncols, vdot, map2, vsum.
  cbn. intros H. injection H as H1 _ _ _ H2 _ _ _ H3.
  repeat split; lra.
Qed.

End ThreeByThree.

Lemma p_value_in_unit_interval (c v : R) :
  cdf_contract -> 0 < v -> 0 <= p_value c v <= 1.
Proof.
  intros Hcdf Hv. unfold p_value.
  assert (Hz : 0 <= Rabs c / v).
  { apply Rmult_le_pos; [apply Rabs_pos |].
    left; now apply Rinv_0_lt_compat. }
  specialize (Hcdf _ Hz). lra.
Qed.

(** C8. When the oracle's answer is an eigendecomposition of the scaled Gram
    matrix and all its eigenvalues are strictly positive, the cell returns
    a vector all of whose entries lie in [0, 1] ([norm.cdf] taking values
    in [1/2, 1] on non-negative arguments). *)
Theorem p_values_in_unit_interval (n : nat) (W : Mat) (b : Vec)
  (sigma2 : R) (X : Mat) (b0 w0 w1 : R) :
  well_shaped n W b sigma2 X b0 w0 w1 ->
  is_eigendecomposition (scaled_gram sigma2 X) (eigh (scaled_gram sigma2 X)) ->
  Forall (fun l => 0 < l) (fst (eigh (scaled_gram sigma2 X))) ->
  cdf_contract ->
  exists p,
    coefficient_p_values n W b sigma2 X = Returned p /\
    length p = 3%nat /\
    Forall (fun x => 0 <= x <= 1) p.
Proof.
  intros Hshape Heig Hpos Hcdf.
  rewrite (coefficient_p_values_returns _ _ _ _ _ _ _ _ Hshape).
  eexists; split; [reflexivity |].
  destruct Hshape as (Hn & _ & _ & _ & Hv).
  destruct Heig as (Hlv & Hlr & Hrows & Horth & Hdec).
  assert (HS : length (scaled_gram sigma2 X) = 3%nat) by congruence.
  assert (Hne : augmented X <> []).
  { intros Hnil. unfold scaled_gram, mscal, dot, transpose in HS.
    rewrite !length_map, length_seq, Hnil in HS. discriminate. }
  pose proof (scaled_gram_00 sigma2 X Hne) as H00.
  unfold W_std.
  rewrite HS in *.
  destruct (eigh (scaled_gram sigma2 X)) as [vals V]. cbn [fst snd] in *.
  destruct vals as [| l1 [| l2 [| l3 [| ? ?]]]]; try discriminate.
  destruct V as [| r1 [| r2 [| r3 [| ? ?]]]]; try discriminate.
  inversion Hrows as [| ? ? Hr1 Hrows1]; subst.
  inversion Hrows1 as [| ? ? Hr2 Hrows2]; subst.
  inversion Hrows2 as [| ? ? Hr3 _]; subst.
  destruct r1 as [| a11 [| a12 [| a13 [| ? ?]]]]; try discriminate.
  destruct r2 as [| a21 [| a22 [| a23 [| ? ?]]]]; try discriminate.
  destruct r3 as [| a31 [| a32 [| a33 [| ? ?]]]]; try discriminate.
  inversion Hpos as [| ? ? Hl1 Hpos1]; subst.
  inversion Hpos1 as [| ? ? Hl2 Hpos2]; subst.
  inversion Hpos2 as [| ? ? Hl3 _]; subst.
  destruct (orthonormal_rows _ _ _ _ _ _ _ _ _ Horth) as (Hu1 & Hu2 & Hu3).
  rewrite <- Hdec, decomposition_entry_00 in H00.
  pose proof (weighted_squares_pos _ _ _ _ _ _ Hu1 Hl1 Hl2 Hl3) as Hw.
  assert (Hsigma : 0 < sigma2).
  { pose proof (pos_INR (length X)) as HN.
    destruct (Rtotal_order sigma2 0) as [Hneg | [Hz | Hp]]; [| | exact Hp].
    - exfalso. assert (1 / sigma2 < 0).
      { unfold Rdiv. rewrite Rmult_1_l. now apply Rinv_lt_0_compat. }
      nra.
    - exfalso. subst sigma2. unfold Rdiv in H00. rewrite Rinv_0 in H00. lra. }
  assert (Hs1 := sqrt_lt_R0 _ Hl1).
  assert (Hs2 := sqrt_lt_R0 _ Hl2).
  assert (Hs3 := sqrt_lt_R0 _ Hl3).
  assert (Hi1 : 0 < 1 / R_sqrt.sqrt l1)
    by (unfold Rdiv; rewrite Rmult_1_l; now apply Rinv_0_lt_compat).
  assert (Hi2 : 0 < 1 / R_sqrt.sqrt l2)
    by (unfold Rdiv; rewrite Rmult_1_l; now apply Rinv_0_lt_compat).
  assert (Hi3 : 0 < 1 / R_sqrt.sqrt l3)
    by (unfold Rdiv; rewrite Rmult_1_l; now apply Rinv_0_lt_compat).
  rewrite W_std_diag_3. unfold map2. cbn [combine map fst snd length].
  split; [reflexivity |].
  apply Forall_cons;
    [| apply Forall_cons; [| apply Forall_cons; [| apply Forall_nil]]];
    apply p_value_in_unit_interval; try exact Hcdf;
    apply Rmult_lt_0_compat; try exact Hsigma;
    now apply weighted_squares_pos.
Qed.

End PValueFacts.

(** The end of either regression cell is the computation above with the
    cell's 1000 rows and the last loss as the residual variance. *)
Lemma p_values_cell_unfold {RNG : Sampler} {ST : Stats} (e : NNFeatures.Env) :
  NNFeatures.p_values_cell e
  = NNFeatures.coefficient_p_values 1000 (NNFeatures.W e) (NNFeatures.b e)
      (NNFeatures.loss_val e) (NNFeatures.X e).
Proof. reflexivity. Qed.

(* ================================================================== *)
(** ** The two datasets of a thousand rows *)
(* ================================================================== *)

Section Datasets.
Import Jnp NNFeatures.

Lemma normal_cdf_contract (decomposition : Vec * Mat) :
  @cdf_contract (stats_with decomposition).
Proof. intros z Hz. apply normal_cdf_nonneg, Hz. Qed.

(** An entry of the Gram matrix of a block stacked [k] times. *)
Lemma gram_entry_repeat (i j k : nat) (B : Mat) :
  vdot (col i (concat (repeat B k))) (col j (concat (repeat B k)))
  = INR k * vdot (col i B) (col j B).
Proof.
  induction k as [| k IH].
  - cbn. lra.
  - cbn [repeat concat]. rewrite !col_app, vdot_app, IH, S_INR.
    + lra.
    + now rewrite !length_col.
Qed.

Lemma augmented_repeat (B : Mat) (k : nat) :
  augmented (concat (repeat B k)) = concat (repeat (augmented B) k).
Proof.
  unfold augmented. rewrite concat_map, map_repeat. reflexivity.
Qed.

(** The Gram matrix of an augmented dataset with two features made of [k]
    copies of a non-empty block. *)
Lemma gram_repeat (r : Vec) (B : Mat) (k : nat) :
  length r = 2%nat ->
  let B_ := augmented (r :: B) in
  let M := augmented (concat (repeat (r :: B) (S k))) in
  dot (transpose M) M
  = map (fun i => map (fun j => INR (S k) * vdot (col i B_) (col j B_))
                      (seq 0 3))
        (seq 0 3).
Proof.
  intros Hr. cbn zeta. rewrite augmented_repeat.
  unfold dot, transpose.
  assert (Hc : ncols (concat (repeat (augmented (r :: B)) (S k))) = 3%nat).
  { cbn. now rewrite Hr. }
  rewrite Hc, map_map. apply map_ext. intros i. apply map_ext. intros j.
  apply gram_entry_repeat.
Qed.

Lemma INR_250 : INR 250 = 250.
Proof. rewrite INR_IZR_INZ. reflexivity. Qed.


Lemma scaled_gram_signs :
  scaled_gram 250 X_signs = [[4; 0; 0]; [0; 4; 0]; [0; 0; 4]].
Proof.
  unfold scaled_gram, X_signs, sign_block.
  rewrite (gram_repeat [1; 1] _ 249 eq_refl). rewrite INR_250.
  unfold mscal, vscal, vdot, map2, vsum, col, augmented.
  cbn [seq map nth combine fst snd fold_right].
  f_equal; [| f_equal; [| f_equal]]; (f_equal; [| f_equal; [| f_equal]]); field.
Qed.


Lemma signs_decomposition :
  is_eigendecomposition (scaled_gram 250 X_signs) ([4; 4; 4], eye3).
Proof.
  rewrite scaled_gram_signs. unfold is_eigendecomposition. cbn [fst snd length].
  split; [reflexivity | split; [reflexivity | split]].
  - repeat constructor.
  - split.
    + unfold eye3, identity, dot, transpose, diagm, col, ncols, vdot, map2,
        vsum.
      cbn. f_equal; [| f_equal; [| f_equal]];
        (f_equal; [| f_equal; [| f_equal]]); ring.
    + unfold eye3, dot, transpose, diagm, col, ncols, vdot, map2, vsum.
      cbn. f_equal; [| f_equal; [| f_equal]];
        (f_equal; [| f_equal; [| f_equal]]); ring.
Qed.



Lemma signs_well_shaped :
  @well_shaped stats_signs 1000 [[2]; [3]] [1] 250 X_signs 1 2 3.
Proof. repeat split. Qed.


Lemma sqrt_4 : R_sqrt.sqrt 4 = 2.
Proof. replace 4 with (2 * 2) by lra. apply sqrt_square. lra. Qed.

Lemma W_std_signs : diagv (@W_std stats_signs 250 X_signs) = [125; 125; 125].
Proof.
  unfold W_std. cbn [eigh stats_signs stats_with fst snd]. unfold eye3.
  rewrite W_std_diag_3, sqrt_4.
  f_equal; [| f_equal; [| f_equal]]; field.
Qed.

End Datasets.

(* ================================================================== *)
(** ** The three inner products *)
(* ================================================================== *)

Section InnerProducts.
Import Jnp JaxAsNumpy.

(** [==] answers true on a value compared with itself, unless it is NaN. *)
Lemma eqb_refl (x : Float32.t) : eqb x x = negb (Float32.is_nan x).
Proof.
  destruct x as [r | s |]; cbn.
  - destruct (Req_EM_T r r); [reflexivity | contradiction].
  - apply Bool.eqb_reflx.
  - reflexivity.
Qed.







(** *** Overflow *)






End InnerProducts.



(* ================================================================== *)
(** ** The statements at concrete inputs *)
(* ================================================================== *)

(** C3 fails as stated.  On the sign dataset with residual variance 250
    every diagonal entry of [W_std] is 125; the cell returns
    [2 * (1 - cdf(|c| / 125))] for the coefficients 1, 2, 3, which is not
    the vector [2 * (1 - cdf(|c| / sqrt 125))] of the claim. *)
Lemma p_values_divide_by_entry_not_root :
  Jnp.diagv (@W_std stats_signs 250 X_signs) = [125; 125; 125] /\
  @NNFeatures.coefficient_p_values stats_signs 1000 [[2]; [3]] [1] 250 X_signs
    = Returned [2 * (1 - Normal.cdf (Rabs 1 / 125));
                2 * (1 - Normal.cdf (Rabs 2 / 125));
                2 * (1 - Normal.cdf (Rabs 3 / 125))] /\
  @NNFeatures.coefficient_p_values stats_signs 1000 [[2]; [3]] [1] 250 X_signs
    <> Returned [2 * (1 - Normal.cdf (Rabs 1 / R_sqrt.sqrt 125));
                 2 * (1 - Normal.cdf (Rabs 2 / R_sqrt.sqrt 125));
                 2 * (1 - Normal.cdf (Rabs 3 / R_sqrt.sqrt 125))].
Proof.
  assert (Hret :
    @NNFeatures.coefficient_p_values stats_signs 1000 [[2]; [3]] [1] 250 X_signs
    = Returned [2 * (1 - Normal.cdf (Rabs 1 / 125));
                2 * (1 - Normal.cdf (Rabs 2 / 125));
                2 * (1 - Normal.cdf (Rabs 3 / 125))]).
  { rewrite (coefficient_p_values_returns _ _ _ _ _ _ _ _ signs_well_shaped).
    rewrite W_std_signs. reflexivity. }
  split; [exact W_std_signs | split; [exact Hret |]].
  rewrite Hret. intros Heq. injection Heq as H1 _ _.
  assert (Hroot : R_sqrt.sqrt 125 < 125) by (apply sqrt_less; lra).
  assert (Hpos : 0 < R_sqrt.sqrt 125) by (apply sqrt_lt_R0; lra).
  assert (Hlt : Rabs 1 / 125 < Rabs 1 / R_sqrt.sqrt 125).
  { rewrite Rabs_R1. unfold Rdiv. rewrite !Rmult_1_l.
    apply Rinv_lt_contravar; [| exact Hroot].
    apply Rmult_lt_0_compat; lra. }
  assert (H0 : 0 <= Rabs 1 / 125) by (rewrite Rabs_R1; lra).
  pose proof (normal_cdf_increasing _ _ H0 Hlt). lra.
Qed.

(** Witness of C3 as the cell computes it. *)
Lemma coefficient_p_values_formula_witness :
  exists v0 v1 v2,
    Jnp.diagv (@W_std stats_signs 250 X_signs) = [v0; v1; v2] /\
    @NNFeatures.coefficient_p_values stats_signs 1000 [[2]; [3]] [1] 250 X_signs
    = Returned [2 * (1 - Normal.cdf (Rabs 1 / v0));
                2 * (1 - Normal.cdf (Rabs 2 / v1));
                2 * (1 - Normal.cdf (Rabs 3 / v2))].
Proof.
  exact (@coefficient_p_values_formula stats_signs 1000 [[2]; [3]] [1] 250
           X_signs 1 2 3 signs_well_shaped).
Defined.



(** Witness of C8: the sign dataset has the eigenvalues 4, 4, 4. *)
Lemma p_values_in_unit_interval_witness :
  exists p,
    @NNFeatures.coefficient_p_values stats_signs 1000 [[2]; [3]] [1] 250 X_signs
    = Returned p /\
    length p = 3%nat /\
    Forall (fun x => 0 <= x <= 1) p.
Proof.
  apply (@p_values_in_unit_interval stats_signs 1000 [[2]; [3]] [1] 250
           X_signs 1 2 3).
  - exact signs_well_shaped.
  - exact signs_decomposition.
  - cbn. repeat constructor; lra.
  - exact (normal_cdf_contract _).
Defined.

Lemma seeded_sampler_contract : @sampler_contract seeded_sampler.
Proof.
  intros key r c lo hi Hlt. cbn [randint seeded_sampler]. split.
  - now rewrite length_map, length_seq.
  - apply Forall_forall. intros row Hin.
    apply in_map_iff in Hin. destruct Hin as (i & <- & _). split.
    + now rewrite length_map, length_seq.
    + apply Forall_forall. intros j Hj.
      apply in_map_iff in Hj. destruct Hj as (j' & <- & _).
      pose proof (Nat.mod_upper_bound (key + 7 * i + 3 * j') (hi - lo)).
      lia.
Qed.

(** Witness of C4: the cell's batch size and batch count on a dataset of
    one sample. *)
Lemma minibatch_epoch_batches_witness :
  let e := single_env 20 0 1 0 in
  let batches :=
    @NNFeatures.batches_of
      (@NNFeatures.epoch_indices seeded_sampler 16 100 e) 100 in
  let e' :=
    @NNFeatures.minibatch_body exact_diff seeded_sampler (1 / 1000) 16 100 e
  in
  batches = @randint seeded_sampler (@PRNGKey seeded_sampler 0) 100 16 0 1 /\
  length batches = 100%nat /\
  Forall (fun idx => length idx = 16%nat /\
                     length (Jnp.take_rows [[20]] idx) = 16%nat /\
                     Forall (fun i => (i < 1)%nat) idx) batches /\
  (NNFeatures.W e', NNFeatures.b e') =
    fold_left (@sgd_update exact_diff (1 / 1000) 16 [[20]] [[0]]) batches
              ([[1]], [0]).
Proof.
  apply (@minibatch_epoch_batches exact_diff seeded_sampler (1 / 1000) 16 100
           (single_env 20 0 1 0)).
  - exact seeded_sampler_contract.
  - cbn. lia.
Defined.

(** Witness of C7. *)
Lemma fit_minibatch_deterministic_witness :
  @NNFeatures.fit_minibatch exact_diff seeded_sampler (1 / 1000) 16 100
      (1 / 100000) 5 (single_env 20 0 1 0) =
  @NNFeatures.fit_minibatch exact_diff seeded_sampler (1 / 1000) 16 100
      (1 / 100000) 5 other_notebook.
Proof.
  apply (@fit_minibatch_deterministic exact_diff seeded_sampler (1 / 1000) 16 99
           (1 / 100000) 5 (single_env 20 0 1 0) other_notebook).
  repeat split.
Defined.



(* ================================================================== *)
(** ** Further properties of the cells *)
(* ================================================================== *)

(* ================================================================== *)
(** ** The model and its loss *)
(* ================================================================== *)

Section LossFacts.
Import Jnp.

Lemma flatten_msquare (m : Mat) :
  flatten (msquare m) = map (fun x => x ^ 2) (flatten m).
Proof. unfold flatten, msquare. symmetry. apply concat_map. Qed.

Lemma vsum_squares_nonneg (v : Vec) : 0 <= vsum (map (fun x => x ^ 2) v).
Proof.
  induction v as [| a v IH]; cbn [map vsum fold_right]; [lra |].
  change (fold_right Rplus 0 ?l) with (vsum l).
  pose proof (pow2_ge_0 a). lra.
Qed.

Lemma vsum_squares_zero (v : Vec) :
  vsum (map (fun x => x ^ 2) v) = 0 <-> Forall (fun x => x = 0) v.
Proof.
  induction v as [| a v IH]; cbn [map vsum fold_right].
  - split; [constructor | reflexivity].
  - change (fold_right Rplus 0 ?l) with (vsum l).
    pose proof (pow2_ge_0 a) as Ha. pose proof (vsum_squares_nonneg v) as Hv.
    split.
    + intros H. constructor.
      * assert (Hz : a ^ 2 = 0) by lra.
        replace (a ^ 2) with (a * a) in Hz by ring.
        destruct (Rmult_integral _ _ Hz); assumption.
      * apply IH. lra.
    + intros H. inversion H as [| ? ? H0 Hr]; subst.
      apply IH in Hr. rewrite Hr. lra.
Qed.

Lemma inv_INR_nonneg (n : nat) : 0 <= / INR n.
Proof.
  destruct n as [| n].
  - cbn [INR]. rewrite Rinv_0. lra.
  - left. apply Rinv_0_lt_compat. apply lt_0_INR. lia.
Qed.

(** The rows of [predict] for a column of weights. *)
Lemma predict_column (ws : Vec) (b0 : R) (X : Mat) :
  ws <> [] ->
  NNFeatures.predict (column ws) [b0] X = map (fun x => [vdot x ws + b0]) X.
Proof.
  intros Hws. unfold NNFeatures.predict, dot, column.
  assert (Hn : ncols (map (fun w => [w]) ws) = 1%nat).
  { destruct ws; [contradiction | reflexivity]. }
  rewrite Hn. cbn [seq map]. rewrite col0_column.
  unfold add_bias. rewrite map_map. reflexivity.
Qed.

(** The residuals [predict(w, b, x) - y], one per sample. *)
Lemma residuals_column (ws : Vec) (b0 : R) (X : Mat) (ts : Vec) :
  ws <> [] ->
  flatten (msub (NNFeatures.predict (column ws) [b0] X) (column ts))
  = map2 (fun x t => vdot x ws + b0 - t) X ts.
Proof.
  intros Hws. rewrite (predict_column ws b0 X Hws).
  unfold flatten, msub, vsub, map2, column.
  revert ts. induction X as [| x X IH]; intros [| t ts]; try reflexivity.
  cbn [map combine concat fst snd app]. f_equal. apply IH.
Qed.

Lemma loss_residuals (w : Mat) (b : Vec) (x y : Mat) :
  NNFeatures.loss w b x y
  = vsum (map (fun r => r ^ 2) (flatten (msub (NNFeatures.predict w b x) y)))
    / INR (length (flatten (msub (NNFeatures.predict w b x) y))).
Proof.
  unfold NNFeatures.loss, mean. rewrite flatten_msquare.
  now rewrite length_map.
Qed.

Lemma map_nth_seq {A B} (h : A -> B) (l : list A) (d : A) :
  map (fun i => h (nth i l d)) (seq 0 (length l)) = map h l.
Proof.
  induction l as [| a l IH]; [reflexivity |].
  cbn [length seq map nth]. f_equal.
  rewrite <- seq_shift, map_map. exact IH.
Qed.

Lemma length_map2 {A B C} (g : A -> B -> C) (u : list A) (v : list B) :
  length (map2 g u v) = Nat.min (length u) (length v).
Proof. unfold map2. now rewrite length_map, length_combine. Qed.

Lemma Forall_map2 {A B} (P : A -> B -> Prop) (u : list A) (v : list B) :
  length u = length v ->
  (Forall (fun p => P (fst p) (snd p)) (combine u v) <-> Forall2 P u v).
Proof.
  revert v. induction u as [| a u IH]; intros [| c v] Hl; try discriminate.
  - split; constructor.
  - injection Hl as Hl. cbn [combine]. split; intros H.
    + inversion H; subst. constructor; [assumption | now apply IH].
    + inversion H; subst. constructor; [assumption | now apply IH].
Qed.

End LossFacts.

Lemma loss_nonnegative (w : Jnp.Mat) (b : Jnp.Vec) (x y : Jnp.Mat) :
  0 <= NNFeatures.loss w b x y.
Proof.
  rewrite loss_residuals. unfold Rdiv.
  apply Rmult_le_pos; [apply vsum_squares_nonneg | apply inv_INR_nonneg].
Qed.

(** X1. What the array expression of [loss] computes on data of the
    expected shape: the sum over the samples of the squared residuals
    [(x . w + b - t)^2], over the number of samples. *)
Theorem loss_is_mean_squared_error (ws : Jnp.Vec) (b0 : R) (X : Jnp.Mat)
  (ts : Jnp.Vec) :
  regression_data ws X ts ->
  NNFeatures.loss (column ws) [b0] X (column ts)
  = Jnp.vsum (Jnp.map2 (fun x t => (Jnp.vdot x ws + b0 - t) ^ 2) X ts)
    / INR (length X).
Proof.
  intros (Hws & _ & Hl & _). rewrite loss_residuals.
  rewrite (residuals_column ws b0 X ts Hws).
  rewrite length_map2, <- Hl, Nat.min_id. f_equal.
  unfold Jnp.map2. now rewrite map_map.
Qed.

Lemma loss_is_mean_squared_error_witness :
  NNFeatures.loss (column [2; 5]) [1] [[1; 0]; [3; 1]] (column [3; 10])
  = Jnp.vsum (Jnp.map2 (fun x t => (Jnp.vdot x [2; 5] + 1 - t) ^ 2)
                [[1; 0]; [3; 1]] [3; 10])
    / INR 2.
Proof.
  apply (loss_is_mean_squared_error [2; 5] 1 [[1; 0]; [3; 1]] [3; 10]).
  split; [discriminate | split; [discriminate | split; [reflexivity |]]].
  repeat constructor.
Defined.

(** X2. On data of the expected shape the loss is never negative, and it
    is zero exactly when the model reproduces every target. *)
Theorem loss_zero_iff_exact_fit (ws : Jnp.Vec) (b0 : R) (X : Jnp.Mat)
  (ts : Jnp.Vec) :
  regression_data ws X ts ->
  0 <= NNFeatures.loss (column ws) [b0] X (column ts) /\
  (NNFeatures.loss (column ws) [b0] X (column ts) = 0 <->
   Forall2 (fun x t => Jnp.vdot x ws + b0 = t) X ts).
Proof.
  intros (Hws & HX & Hl & _). split; [apply loss_nonnegative |].
  rewrite loss_residuals.
  rewrite (residuals_column ws b0 X ts Hws).
  set (r := Jnp.map2 (fun x t => Jnp.vdot x ws + b0 - t) X ts).
  assert (Hn : 0 < INR (length r)).
  { apply lt_0_INR. unfold r. rewrite length_map2, <- Hl, Nat.min_id.
    destruct X; [contradiction | cbn; lia]. }
  assert (Hr : Forall (fun v => v = 0) r <->
               Forall2 (fun x t => Jnp.vdot x ws + b0 = t) X ts).
  { unfold r, Jnp.map2. rewrite Forall_map.
    rewrite <- (Forall_map2 (fun x t => Jnp.vdot x ws + b0 = t) X ts Hl).
    split; intros H; eapply Forall_impl; try exact H; cbv beta; intros p Hp;
      lra. }
  rewrite <- Hr, <- vsum_squares_zero.
  split; intros H.
  - apply (Rmult_eq_compat_r (INR (length r))) in H.
    unfold Rdiv in H. rewrite Rmult_assoc, Rinv_l in H by lra. lra.
  - rewrite H. unfold Rdiv. ring.
Qed.

Lemma loss_zero_iff_exact_fit_witness :
  0 <= NNFeatures.loss (column [2]) [1] [[1]; [3]] (column [3; 7]) /\
  (NNFeatures.loss (column [2]) [1] [[1]; [3]] (column [3; 7]) = 0 <->
   Forall2 (fun x t => Jnp.vdot x [2] + 1 = t) [[1]; [3]] [3; 7]).
Proof.
  apply (loss_zero_iff_exact_fit [2] 1 [[1]; [3]] [3; 7]).
  split; [discriminate | split; [discriminate | split; [reflexivity |]]].
  repeat constructor.
Defined.

(* ================================================================== *)
(** ** Derivatives and the Taylor accumulation, continued *)
(* ================================================================== *)

(** X3. Under exact differentiation [grad_f] is the function [2 x]. *)
Theorem grad_f_is_twice_x (x : R) : @NNFeatures.grad_f exact_diff x = 2 * x.
Proof.
  unfold NNFeatures.grad_f. cbn [grad exact_diff]. apply grad_eq.
  apply derivable_pt_lim_ext with (g2 := fun t => (1 * t + 0) ^ 2).
  - intros t. unfold NNFeatures.f. ring.
  - replace (2 * x) with (2 * 1 * (1 * x + 0)) by ring.
    apply derivable_pt_lim_sq_affine.
Qed.

(** X4. On positive numbers the notebook's [sqrt], written [x**(1/2)], is
    the square root, and under exact differentiation [d1] is
    [1 / (2 sqrt x)]. *)
Theorem sqrt_and_its_gradient (x : R) :
  0 < x ->
  NNFeatures.sqrt x = R_sqrt.sqrt x /\
  @NNFeatures.d1 exact_diff x = 1 / (2 * R_sqrt.sqrt x).
Proof.
  intros Hx.
  assert (Hs : Rpower x (1 / 2) = R_sqrt.sqrt x).
  { replace (1 / 2) with (/ 2) by lra. now apply Rpower_sqrt. }
  assert (Hpos : 0 < R_sqrt.sqrt x) by now apply sqrt_lt_R0.
  split; [exact Hs |].
  unfold NNFeatures.d1. cbn [grad exact_diff].
  change (Autodiff.grad NNFeatures.sqrt x)
    with (Nat.iter 1 Autodiff.grad NNFeatures.sqrt x).
  rewrite iter_grad_sqrt by exact Hx.
  cbn [half_falling INR].
  replace (1 / 2 - 1) with (- (1 / 2)) by lra.
  rewrite Rpower_Ropp, Hs. field. lra.
Qed.

Lemma sqrt_and_its_gradient_witness :
  NNFeatures.sqrt 4 = R_sqrt.sqrt 4 /\
  @NNFeatures.d1 exact_diff 4 = 1 / (2 * R_sqrt.sqrt 4).
Proof. apply (sqrt_and_its_gradient 4). lra. Defined.

Section TaylorLoop.
Context {AD : Differentiation}.
Import NNFeatures.

Lemma firstn_orders (k : nat) :
  (k <= highest_order)%nat -> firstn k (seq 1 highest_order) = seq 1 k.
Proof.
  unfold highest_order. intros Hk.
  do 6 (destruct k as [| k]; [reflexivity |]). lia.
Qed.

(** X5. Whatever [grad] is, after [k] of its five iterations the loop holds
    the [k]-th iterated gradient of [sqrt] in [d] and [k]! in [factorial],
    and has added to 7 the terms of orders 1 to [k], the one of order [i]
    divided by [(i-1)]!. *)
Theorem taylor_loop_variables (k : nat) :
  (k <= highest_order)%nat ->
  d (taylor_after k) = Nat.iter k grad sqrt /\
  factorial (taylor_after k) = fact k /\
  approx_total (taylor_after k)
  = 7 + Jnp.vsum (map (fun i => Nat.iter i grad sqrt 49
                                * IZR ((-6) ^ Z.of_nat i)
                                / INR (fact (i - 1))) (seq 1 k)).
Proof.
  intros Hk. unfold taylor_after. rewrite (firstn_orders k Hk).
  exact (taylor_fold k).
Qed.

End TaylorLoop.

Lemma taylor_loop_variables_witness :
  NNFeatures.d (@NNFeatures.taylor_after exact_diff 5)
  = Nat.iter 5 (@grad exact_diff) NNFeatures.sqrt /\
  NNFeatures.factorial (@NNFeatures.taylor_after exact_diff 5) = fact 5 /\
  NNFeatures.approx_total (@NNFeatures.taylor_after exact_diff 5)
  = 7 + Jnp.vsum (map (fun i => Nat.iter i (@grad exact_diff)
                                  NNFeatures.sqrt 49
                                * IZR ((-6) ^ Z.of_nat i)
                                / INR (fact (i - 1))) (seq 1 5)).
Proof.
  apply (@taylor_loop_variables exact_diff 5).
  unfold NNFeatures.highest_order. lia.
Defined.

(** X6 at the third iteration. *)
Lemma taylor_loop_below_polynomial_witness :
  NNFeatures.approx_total (@NNFeatures.taylor_after exact_diff 3)
  < @taylor_polynomial exact_diff 3.
Proof.
  apply (taylor_loop_below_polynomial 3).
  unfold NNFeatures.highest_order. lia.
Defined.

Lemma accumulated_term_negative (i : nat) :
  @accumulated_term exact_diff (S i) < 0.
Proof.
  unfold accumulated_term.
  pose proof (exact_term_negative i) as Hneg.
  assert (Hf : 0 < / INR (fact (S i - 1))).
  { apply Rinv_0_lt_compat, lt_0_INR, lt_O_fact. }
  unfold Rdiv. nra.
Qed.

Lemma accumulated_after_second (k : nat) :
  Jnp.vsum (map (@accumulated_term exact_diff) (seq 1 (2 + k)))
  <= - (6 / 14) - 36 / 1372.
Proof.
  induction k as [| k IH].
  - cbn [Nat.add seq map Jnp.vsum fold_right]. unfold accumulated_term.
    rewrite exact_d1_49, exact_d2_49. simpl. lra.
  - replace (2 + S k)%nat with (S (2 + k)) by lia.
    rewrite seq_S, map_app, vsum_app.
    cbn [map Jnp.vsum fold_right].
    pose proof (accumulated_term_negative (2 + k)) as Hneg.
    change (1 + (2 + k))%nat with (S (2 + k)). lra.
Qed.

Lemma sqrt_43_above : 7 - 6 / 14 - 36 / 1372 < R_sqrt.sqrt 43.
Proof.
  apply Rsqr_incrst_0.
  - rewrite Rsqr_sqrt by lra. unfold Rsqr. lra.
  - lra.
  - apply sqrt_pos.
Qed.

(** X7. Under exact differentiation, from the second iteration on the
    loop's value is below the true value [sqrt 43] and every further
    iteration lowers it: the error the cell prints grows with the order. *)
Theorem taylor_error_grows (k : nat) :
  (2 <= k < NNFeatures.highest_order)%nat ->
  0 < R_sqrt.sqrt 43
      - NNFeatures.approx_total (@NNFeatures.taylor_after exact_diff k)
  /\
  R_sqrt.sqrt 43
    - NNFeatures.approx_total (@NNFeatures.taylor_after exact_diff k)
  < R_sqrt.sqrt 43
    - NNFeatures.approx_total (@NNFeatures.taylor_after exact_diff (S k)).
Proof.
  intros [H2 H5].
  rewrite !taylor_after_closed_form by lia.
  rewrite seq_S, map_app, vsum_app. cbn [map Jnp.vsum fold_right].
  pose proof (accumulated_term_negative k) as Hneg.
  change (1 + k)%nat with (S k).
  pose proof (accumulated_after_second (k - 2)) as Hle.
  replace (2 + (k - 2))%nat with k in Hle by lia.
  pose proof sqrt_43_above. lra.
Qed.

Lemma taylor_error_grows_witness :
  0 < R_sqrt.sqrt 43
      - NNFeatures.approx_total (@NNFeatures.taylor_after exact_diff 2)
  /\
  R_sqrt.sqrt 43
    - NNFeatures.approx_total (@NNFeatures.taylor_after exact_diff 2)
  < R_sqrt.sqrt 43
    - NNFeatures.approx_total (@NNFeatures.taylor_after exact_diff 3).
Proof.
  apply (taylor_error_grows 2). unfold NNFeatures.highest_order. lia.
Defined.

(* ================================================================== *)
(** ** The full-batch loop, continued *)
(* ================================================================== *)

Section NormFacts.
Import Jnp.

Lemma vnorm_nonneg (v : Vec) : 0 <= vnorm v.
Proof. apply sqrt_pos. Qed.

Lemma mnorm_nonneg (m : Mat) : 0 <= mnorm m.
Proof. apply sqrt_pos. Qed.

Lemma vsub_self_squares (v : Vec) :
  vsum (map (fun x => x * x) (vsub v v)) = 0.
Proof.
  unfold vsub, map2.
  induction v as [| a v IH]; cbn [combine map fst snd vsum fold_right];
    [reflexivity |].
  change (fold_right Rplus 0 ?l) with (vsum l). rewrite IH. ring.
Qed.

Lemma vnorm_vsub_self (v : Vec) : vnorm (vsub v v) = 0.
Proof. unfold vnorm. rewrite vsub_self_squares. apply sqrt_0. Qed.

Lemma mnorm_msub_self (m : Mat) : mnorm (msub m m) = 0.
Proof.
  unfold mnorm, vnorm.
  replace (vsum (map (fun x => x * x) (flatten (msub m m)))) with 0;
    [apply sqrt_0 |].
  unfold flatten, msub, map2.
  induction m as [| r m IH]; cbn [combine map fst snd concat];
    [reflexivity |].
  rewrite map_app, vsum_app, <- IH, vsub_self_squares. ring.
Qed.

Lemma vsub_zeros (c : R) (v : Vec) : vsub v (vscal c (zeros_like1 v)) = v.
Proof.
  unfold vsub, vscal, zeros_like1, map2.
  induction v as [| a v IH]; cbn [map combine fst snd]; [reflexivity |].
  rewrite IH. f_equal. ring.
Qed.

Lemma msub_zeros (c : R) (m : Mat) : msub m (mscal c (zeros_like m)) = m.
Proof.
  unfold msub, mscal, zeros_like, map2.
  induction m as [| r m IH]; cbn [map combine fst snd]; [reflexivity |].
  rewrite IH. f_equal. apply (vsub_zeros c r).
Qed.

Lemma vdivs_zeros (c k : R) (v : Vec) :
  vdivs (vscal c (zeros_like1 v)) k = vscal c (zeros_like1 v).
Proof.
  unfold vdivs, vscal, zeros_like1. rewrite !map_map. apply map_ext.
  intros _. unfold Rdiv. ring.
Qed.

Lemma length_vsub (u v : Vec) :
  length v = length u -> length (vsub u v) = length u.
Proof. intros H. unfold vsub. rewrite length_map2, H. apply Nat.min_id. Qed.

Lemma shape_mscal (c : R) (m : Mat) : shape (mscal c m) = shape m.
Proof.
  unfold shape, mscal, vscal. rewrite map_map. apply map_ext.
  intros r. apply length_map.
Qed.

Lemma shape_mdivs (m : Mat) (c : R) : shape (mdivs m c) = shape m.
Proof.
  unfold shape, mdivs, vdivs. rewrite map_map. apply map_ext.
  intros r. apply length_map.
Qed.

Lemma shape_msub (a c : Mat) : shape c = shape a -> shape (msub a c) = shape a.
Proof.
  unfold shape, msub, map2. revert c.
  induction a as [| r a IH]; intros [| r' c] H; try discriminate;
    [reflexivity |].
  cbn [map combine fst snd] in *. injection H as Hr Hc.
  f_equal; [now apply length_vsub | now apply IH].
Qed.

End NormFacts.

Section FullBatchMore.
Context {AD : Differentiation} {RNG : Sampler}.
Import Jnp NNFeatures.

Lemma converged_nonpositive (tol : R) (e : Env) :
  tol <= 0 -> converged tol e = false.
Proof.
  intros Htol. unfold converged. apply andb_false_iff. left.
  apply ltb_false. pose proof (mnorm_nonneg (msub (W e) (old_W e))). lra.
Qed.

(** X8. With a tolerance that is zero or negative neither loop (the
    mini-batch one with at least one batch) ever passes the test before
    its [break]: no number of epochs makes it return, whatever the data and
    the gradients. *)
Theorem nonpositive_tolerance_never_returns (learning_rate tolerance : R)
  (batch_size n fuel : nat) (e : Env) :
  tolerance <= 0 ->
  fit_full_batch learning_rate tolerance fuel e = None /\
  fit_minibatch learning_rate batch_size (S n) tolerance fuel e = None.
Proof.
  intros Htol. split; revert e; induction fuel as [| fuel IH]; intros e;
    try reflexivity.
  - cbn [fit_full_batch]. cbn zeta.
    rewrite (converged_nonpositive _ _ Htol). apply IH.
  - cbn [fit_minibatch]. cbn zeta.
    rewrite (converged_nonpositive _ _ Htol). apply IH.
Qed.

(** X9. What a returned state holds, on arrays of the notebook's shapes.
    The data are unchanged and the epoch counter has advanced by less than
    the number of passes allowed; [loss_val] is the loss at the parameters
    of before the last update, which are in [old_W] and [old_b], not at the
    returned [W] and [b]; the returned parameters are one gradient step
    from the old ones, and the step is shorter than the tolerance. *)
Theorem full_batch_result_state (learning_rate tolerance : R) (fuel : nat)
  (e r : Env) :
  grad_shape_contract -> regression_shapes e ->
  fit_full_batch learning_rate tolerance fuel e = Some r ->
  X r = X e /\ y r = y e /\
  (epoch e <= epoch r < epoch e + fuel)%nat /\
  loss_val r = loss (old_W r) (old_b r) (X e) (y e) /\
  W r = msub (old_W r)
          (mscal learning_rate
             (fst (grad01 loss (old_W r) (old_b r) (X e) (y e)))) /\
  b r = vsub (old_b r)
          (vscal learning_rate
             (snd (grad01 loss (old_W r) (old_b r) (X e) (y e)))) /\
  mnorm (msub (W r) (old_W r)) < tolerance /\
  vnorm (vsub (b r) (old_b r)) < tolerance.
Proof.
  intros _ _ H. apply fit_full_batch_some in H.
  destruct H as (k & Hk & -> & (HsW & Hsb) & _).
  destruct (epoch_start_data learning_rate k e) as (HX & Hy & He).
  unfold epoch_end in *.
  set (s := epoch_start learning_rate k e) in *.
  change (X (full_batch_body learning_rate s)) with (X s).
  change (y (full_batch_body learning_rate s)) with (y s).
  change (epoch (full_batch_body learning_rate s)) with (epoch s).
  change (old_W (full_batch_body learning_rate s)) with (W s) in *.
  change (old_b (full_batch_body learning_rate s)) with (b s) in *.
  change (loss_val (full_batch_body learning_rate s))
    with (loss (W s) (b s) (X s) (y s)).
  rewrite HX, Hy, He.
  split; [reflexivity | split; [reflexivity | split; [lia |]]].
  split; [reflexivity |].
  split; [cbn; now rewrite HX, Hy |].
  split; [cbn; now rewrite HX, Hy |].
  split; assumption.
Qed.

Lemma full_batch_body_stdout (lr : R) (s : Env) :
  stdout (full_batch_body lr s)
  = if Nat.eqb (epoch s mod 100) 0
    then stdout s ++ [line_of (full_batch_body lr s)]
    else stdout s.
Proof. reflexivity. Qed.

Lemma epoch_end_epoch (lr : R) (k : nat) (e : Env) :
  epoch (epoch_end lr k e) = (epoch e + k)%nat.
Proof.
  unfold epoch_end. destruct (epoch_start_data lr k e) as (_ & _ & He).
  cbn. exact He.
Qed.

(** X10. Everything the loop has printed by the end of its pass [k], on
    arrays of the notebook's shapes: after
    what was printed before, one line for every pass [j <= k] whose
    epoch number is a multiple of 100, in order, showing that epoch, the
    loss at the parameters the pass started with and the parameters it
    left. *)
Theorem full_batch_printed_lines (learning_rate : R) (e : Env) (k : nat) :
  grad_shape_contract -> regression_shapes e ->
  stdout (epoch_end learning_rate k e)
  = stdout e
    ++ map (fun j => line_of (epoch_end learning_rate j e))
           (printing_epochs (epoch e) k).
Proof.
  intros _ _. induction k as [| k IH].
  - unfold epoch_end, epoch_start, printing_epochs.
    cbn [Nat.iter nat_rect seq filter].
    rewrite full_batch_body_stdout, Nat.add_0_r.
    destruct (Nat.eqb (epoch e mod 100) 0); cbn [map];
      [reflexivity | now rewrite app_nil_r].
  - unfold printing_epochs in *. rewrite seq_S, filter_app, map_app, app_assoc.
    rewrite <- IH. cbn [Nat.add filter].
    change (epoch_end learning_rate (S k) e)
      with (full_batch_body learning_rate
              (next_epoch (epoch_end learning_rate k e))) at 1.
    rewrite full_batch_body_stdout.
    cbn [epoch stdout next_epoch]. rewrite epoch_end_epoch.
    replace (S (epoch e + k)) with (epoch e + S k)%nat by lia.
    destruct (Nat.eqb ((epoch e + S k) mod 100) 0); cbn [map];
      [reflexivity | now rewrite app_nil_r].
Qed.

(** X11. Started, on arrays of the notebook's shapes, where the gradient of
    the loss is zero, with a positive tolerance, the loop returns in its
    first pass and leaves the parameters as they were. *)
Theorem stationary_start_returns_at_once (learning_rate tolerance : R)
  (fuel : nat) (e : Env) :
  0 < tolerance -> regression_shapes e ->
  grad01 loss (W e) (b e) (X e) (y e)
  = (zeros_like (W e), zeros_like1 (b e)) ->
  exists r,
    fit_full_batch learning_rate tolerance (S fuel) e = Some r /\
    W r = W e /\ b r = b e /\ epoch r = epoch e /\
    loss_val r = loss (W e) (b e) (X e) (y e).
Proof.
  intros Htol _ Hg. exists (full_batch_body learning_rate e).
  assert (HW : W (full_batch_body learning_rate e) = W e).
  { cbn. rewrite Hg. cbn [fst]. apply msub_zeros. }
  assert (Hb : b (full_batch_body learning_rate e) = b e).
  { cbn. rewrite Hg. cbn [snd]. apply vsub_zeros. }
  split; [| repeat split; assumption].
  cbn [fit_full_batch]. cbn zeta.
  replace (converged tolerance (full_batch_body learning_rate e)) with true;
    [reflexivity |].
  symmetry. unfold converged. rewrite HW, Hb.
  change (old_W (full_batch_body learning_rate e)) with (W e).
  change (old_b (full_batch_body learning_rate e)) with (b e).
  rewrite mnorm_msub_self, vnorm_vsub_self.
  apply andb_true_iff. split; now apply ltb_true.
Qed.

Lemma regression_shapes_same (s e : Env) :
  X s = X e -> y s = y e -> shape (W s) = shape (W e) ->
  length (b s) = length (b e) ->
  regression_shapes e -> regression_shapes s.
Proof.
  intros HX Hy HW Hb (H1 & H2 & H3 & H4 & H5).
  assert (Hl : length (W s) = length (W e)).
  { apply (f_equal (@length nat)) in HW. unfold shape in HW.
    now rewrite !length_map in HW. }
  unfold regression_shapes. rewrite HX, Hy, Hl, Hb.
  split; [exact H1 | split; [exact H2 | split; [exact H3 | split]]];
    [| exact H5].
  apply (Forall_map (@length R) (fun n => n = 1%nat)).
  fold (shape (W s)). rewrite HW.
  apply (Forall_map (@length R) (fun n => n = 1%nat)). exact H4.
Qed.

Lemma full_batch_body_shapes (lr : R) (s : Env) :
  grad_shape_contract ->
  shape (W (full_batch_body lr s)) = shape (W s) /\
  length (b (full_batch_body lr s)) = length (b s).
Proof.
  intros Hc. destruct (Hc (W s) (b s) (X s) (y s)) as (HgW & Hgb). cbn.
  split.
  - apply shape_msub. now rewrite shape_mscal.
  - apply length_vsub. unfold vscal. now rewrite length_map.
Qed.

Lemma epoch_start_shapes (lr : R) (e : Env) (k : nat) :
  grad_shape_contract -> regression_shapes e ->
  regression_shapes (epoch_start lr k e).
Proof.
  intros Hc He. induction k as [| k IH]; [exact He |].
  rewrite epoch_start_S. unfold epoch_end.
  destruct (full_batch_body_shapes lr (epoch_start lr k e) Hc) as (H1 & H2).
  apply (regression_shapes_same _ (epoch_start lr k e));
    try assumption; reflexivity.
Qed.

Lemma epoch_end_shapes (lr : R) (e : Env) (k : nat) :
  grad_shape_contract -> regression_shapes e ->
  regression_shapes (epoch_end lr k e).
Proof.
  intros Hc He. unfold epoch_end.
  destruct (full_batch_body_shapes lr (epoch_start lr k e) Hc) as (H1 & H2).
  apply (regression_shapes_same _ (epoch_start lr k e));
    try assumption; try reflexivity.
  now apply epoch_start_shapes.
Qed.

(** X12. When every gradient has the shape of the array it is taken in, the
    loop keeps the notebook's shapes: the arrays have them at the start of
    every epoch and in the state the loop returns, so that no operation of
    the loop meets arrays of incompatible shapes. *)
Theorem full_batch_keeps_shapes (learning_rate tolerance : R) (e : Env) :
  grad_shape_contract -> regression_shapes e ->
  (forall k, regression_shapes (epoch_start learning_rate k e)) /\
  (forall fuel r,
      fit_full_batch learning_rate tolerance fuel e = Some r ->
      regression_shapes r).
Proof.
  intros Hc He. split.
  - intros k. now apply epoch_start_shapes.
  - intros fuel r H. apply fit_full_batch_some in H.
    destruct H as (k & _ & -> & _). now apply epoch_end_shapes.
Qed.

End FullBatchMore.

(* ================================================================== *)
(** ** The mini-batch loop, continued *)
(* ================================================================== *)

Section MiniBatchMore.
Context {AD : Differentiation} {RNG : Sampler}.
Import Jnp NNFeatures.

Lemma last_cons {A} (l : list A) (a d : A) : last (a :: l) d = last l a.
Proof.
  revert a d. induction l as [| x l IH]; intros a d; [reflexivity |].
  change (last (a :: x :: l) d) with (last (x :: l) d).
  now rewrite !IH.
Qed.

Lemma batch_step_parameters (lr : R) (bs : nat) (e : Env) (idx : list nat) :
  (W (batch_step lr bs e idx), b (batch_step lr bs e idx))
  = sgd_update lr bs (X e) (y e) (W e, b e) idx.
Proof.
  unfold sgd_update. cbn [batch_step W b fst snd].
  now rewrite mdivs_mscal, vdivs_vscal.
Qed.

Lemma batch_step_losses (lr : R) (bs : nat) (batches : list (list nat)) :
  forall e,
    let e' := fold_left (batch_step lr bs) batches e in
    let losses := batch_losses lr bs (X e) (y e) batches (W e, b e) in
    length losses = length batches /\
    minibatch_loss e' = minibatch_loss e + vsum losses /\
    loss_val e' = last losses (loss_val e).
Proof.
  induction batches as [| idx batches IH]; intros e; cbn zeta.
  - cbn. repeat split. lra.
  - cbn [fold_left batch_losses length].
    specialize (IH (batch_step lr bs e idx)). cbn zeta in IH.
    rewrite batch_step_parameters in IH.
    change (X (batch_step lr bs e idx)) with (X e) in IH.
    change (y (batch_step lr bs e idx)) with (y e) in IH.
    destruct IH as (Hl & Hm & Hv). rewrite Hl, Hm, Hv, last_cons.
    cbn [batch_step minibatch_loss loss_val fst snd vsum fold_right].
    change (fold_right Rplus 0 ?l) with (vsum l).
    repeat split. lra.
Qed.

(** X13. The losses of an epoch of at least one batch, on arrays of the
    notebook's shapes.  There is one loss
    per batch, each taken on the rows of its batch at the parameters left
    by the batch before; [minibatch_loss] is their sum, the line printed
    in every tenth epoch shows their average, and [loss_val], which the
    cell goes on to use as the residual variance, is the loss of the last
    batch alone. *)
Theorem minibatch_epoch_losses (learning_rate : R) (batch_size n : nat)
  (e : Env) :
  sampler_contract -> grad_shape_contract ->
  regression_shapes e -> (0 < length (X e))%nat ->
  let num_batches := S n in
  let batches :=
    batches_of (epoch_indices batch_size num_batches e) num_batches in
  let losses :=
    batch_losses learning_rate batch_size (X e) (y e) batches (W e, b e) in
  let e' := minibatch_body learning_rate batch_size num_batches e in
  length losses = num_batches /\
  minibatch_loss e' = vsum losses /\
  loss_val e' = last losses 0 /\
  stdout e'
  = if Nat.eqb (epoch e mod 10) 0
    then stdout e ++ [{| ln_epoch := epoch e;
                         ln_loss := vsum losses / INR num_batches;
                         ln_W := flatten (W e'); ln_b := nth 0 (b e') 0 |}]
    else stdout e.
Proof.
  intros _ _ _ _. cbn zeta. unfold minibatch_body.
  fold (epoch_indices batch_size (S n) e).
  set (batches := batches_of (epoch_indices batch_size (S n) e) (S n)).
  match goal with
  | |- context [fold_left (batch_step _ _) _ ?e0] => set (s := e0)
  end.
  destruct (batch_step_losses learning_rate batch_size batches s)
    as (Hl & Hm & Hv).
  destruct (batch_step_fold learning_rate batch_size batches s)
    as (_ & _ & _ & He & Hs).
  change (X s) with (X e) in *. change (y s) with (y e) in *.
  change (W s) with (W e) in *. change (b s) with (b e) in *.
  change (minibatch_loss s) with 0 in Hm.
  change (epoch s) with (epoch e) in He.
  change (stdout s) with (stdout e) in Hs.
  set (losses := batch_losses learning_rate batch_size (X e) (y e) batches
                   (W e, b e)) in *.
  assert (Hn : length losses = S n).
  { rewrite Hl. apply batches_of_length. }
  cbn [minibatch_loss loss_val stdout W b].
  split; [exact Hn | split; [rewrite Hm; lra | split]].
  - rewrite Hv. destruct losses as [| a l]; [discriminate |].
    now rewrite !last_cons.
  - unfold report. rewrite He, Hs, Hm, Rplus_0_l. reflexivity.
Qed.

Lemma batch_step_shapes (lr : R) (bs : nat) (e : Env) (idx : list nat) :
  grad_shape_contract ->
  shape (W (batch_step lr bs e idx)) = shape (W e) /\
  length (b (batch_step lr bs e idx)) = length (b e).
Proof.
  intros Hc.
  destruct (Hc (W e) (b e) (take_rows (X e) idx) (take_rows (y e) idx))
    as (HgW & Hgb).
  cbn [batch_step W b]. split.
  - apply shape_msub. now rewrite shape_mdivs, shape_mscal.
  - apply length_vsub. unfold vdivs, vscal. now rewrite !length_map.
Qed.

Lemma batch_fold_shapes (lr : R) (bs : nat) (batches : list (list nat)) :
  grad_shape_contract ->
  forall s,
    shape (W (fold_left (batch_step lr bs) batches s)) = shape (W s) /\
    length (b (fold_left (batch_step lr bs) batches s)) = length (b s).
Proof.
  intros Hc. induction batches as [| idx l IH]; intros s;
    [split; reflexivity |].
  cbn [fold_left].
  destruct (IH (batch_step lr bs s idx)) as (H1 & H2).
  destruct (batch_step_shapes lr bs s idx Hc) as (H3 & H4).
  split; congruence.
Qed.

Lemma minibatch_body_shapes (lr : R) (bs nb : nat) (e : Env) :
  grad_shape_contract ->
  shape (W (minibatch_body lr bs nb e)) = shape (W e) /\
  length (b (minibatch_body lr bs nb e)) = length (b e).
Proof.
  intros Hc. unfold minibatch_body. cbn [W b].
  match goal with
  | |- context [fold_left (batch_step _ _) ?l ?e0] =>
      exact (batch_fold_shapes lr bs l Hc e0)
  end.
Qed.

Lemma minibatch_body_keeps (lr : R) (bs nb : nat) (e : Env) :
  grad_shape_contract -> regression_shapes e ->
  X (minibatch_body lr bs nb e) = X e /\
  y (minibatch_body lr bs nb e) = y e /\
  regression_shapes (minibatch_body lr bs nb e).
Proof.
  intros Hc He.
  assert (Hd : X (minibatch_body lr bs nb e) = X e /\
               y (minibatch_body lr bs nb e) = y e).
  { unfold minibatch_body. cbn [X y].
    match goal with
    | |- context [fold_left (batch_step _ _) ?l ?e0] =>
        destruct (batch_step_fold lr bs l e0) as (_ & HX & Hy & _)
    end.
    split; [exact HX | exact Hy]. }
  destruct Hd as (HX & Hy).
  destruct (minibatch_body_shapes lr bs nb e Hc) as (HW & Hb).
  split; [exact HX | split; [exact Hy |]].
  now apply (regression_shapes_same _ e).
Qed.

Lemma fit_minibatch_keeps (lr : R) (bs nb : nat) (tol : R) (fuel : nat) :
  grad_shape_contract ->
  forall e r,
    regression_shapes e ->
    fit_minibatch lr bs nb tol fuel e = Some r ->
    X r = X e /\ y r = y e /\ regression_shapes r.
Proof.
  intros Hc. induction fuel as [| fuel IH]; intros e r He; [discriminate |].
  cbn [fit_minibatch]. cbn zeta.
  destruct (minibatch_body_keeps lr bs nb e Hc He) as (HX & Hy & He').
  destruct (converged tol (minibatch_body lr bs nb e)).
  - intros [= <-]. split; [exact HX | split; [exact Hy | exact He']].
  - intros H. apply IH in H.
    + cbn [X y next_epoch] in H. destruct H as (H1 & H2 & H3).
      split; [congruence | split; [congruence | exact H3]].
    + apply (regression_shapes_same _ (minibatch_body lr bs nb e));
        try reflexivity. exact He'.
Qed.

(** X14. When every gradient has the shape of the array it is taken in, the
    mini-batch loop (with at least one batch per epoch) keeps the data and
    the notebook's shapes: through every epoch, and in the state it
    returns. *)
Theorem minibatch_keeps_shapes (learning_rate : R) (batch_size n : nat)
  (tolerance : R) (e : Env) :
  grad_shape_contract -> regression_shapes e ->
  (X (minibatch_body learning_rate batch_size (S n) e) = X e /\
   y (minibatch_body learning_rate batch_size (S n) e) = y e /\
   regression_shapes (minibatch_body learning_rate batch_size (S n) e)) /\
  (forall fuel r,
      fit_minibatch learning_rate batch_size (S n) tolerance fuel e = Some r ->
      X r = X e /\ y r = y e /\ regression_shapes r).
Proof.
  intros Hc He. split.
  - now apply minibatch_body_keeps.
  - intros fuel r. now apply fit_minibatch_keeps.
Qed.

End MiniBatchMore.

(* ================================================================== *)
(** ** The p-value lines, continued *)
(* ================================================================== *)

Section PValueMore.
Context {ST : Stats}.
Import Jnp NNFeatures.

Lemma vdot_comm (u v : Vec) : vdot u v = vdot v u.
Proof.
  unfold vdot, map2. revert v.
  induction u as [| a u IH]; intros [| c v]; try reflexivity.
  cbn [combine map fst snd vsum fold_right].
  change (fold_right Rplus 0 ?l) with (vsum l). rewrite IH. ring.
Qed.

(** Entry (i, j) of a table given by a function of the two indices. *)
Lemma nth_table (g : nat -> nat -> R) (m i j : nat) :
  nth j (nth i (map (fun i => map (g i) (seq 0 m)) (seq 0 m)) []) 0
  = if (i <? m)%nat && (j <? m)%nat then g i j else 0.
Proof.
  destruct (Nat.ltb_spec i m) as [Hi | Hi]; cbn [andb].
  - rewrite (nth_indep _ [] (map (g 0%nat) (seq 0 m)))
      by now rewrite length_map, length_seq.
    rewrite (map_nth (fun i => map (g i) (seq 0 m)) (seq 0 m) 0%nat i).
    rewrite seq_nth by exact Hi. cbn [Nat.add].
    destruct (Nat.ltb_spec j m) as [Hj | Hj].
    + rewrite (nth_indep _ 0 (g i 0%nat))
        by now rewrite length_map, length_seq.
      rewrite (map_nth (g i) (seq 0 m) 0%nat j).
      now rewrite seq_nth by exact Hj.
    + apply nth_overflow. now rewrite length_map, length_seq.
  - rewrite (nth_overflow (map _ _)) by now rewrite length_map, length_seq.
    now destruct j.
Qed.

Lemma scaled_gram_table (sigma2 : R) (X : Mat) :
  scaled_gram sigma2 X
  = map (fun i => map (fun j => 1 / sigma2
                         * vdot (col i (augmented X)) (col j (augmented X)))
                      (seq 0 (ncols (augmented X))))
        (seq 0 (ncols (augmented X))).
Proof.
  unfold scaled_gram, mscal, dot, transpose, vscal.
  rewrite !map_map. apply map_ext. intros i. now rewrite map_map.
Qed.

(** X15. The matrix the cell hands to [eigh] is square, with one row per
    column of the augmented data, and symmetric. *)
Theorem scaled_gram_symmetric (sigma2 : R) (X : Mat) :
  length (scaled_gram sigma2 X) = ncols (augmented X) /\
  Forall (fun row => length row = ncols (augmented X))
         (scaled_gram sigma2 X) /\
  forall i j,
    nth j (nth i (scaled_gram sigma2 X) []) 0
    = nth i (nth j (scaled_gram sigma2 X) []) 0.
Proof.
  rewrite scaled_gram_table. split; [| split].
  - now rewrite length_map, length_seq.
  - apply Forall_map, Forall_forall. intros i _.
    now rewrite length_map, length_seq.
  - intros i j.
    rewrite (nth_table
               (fun i j => 1 / sigma2 * vdot (col i (augmented X))
                                             (col j (augmented X)))).
    rewrite (nth_table
               (fun i j => 1 / sigma2 * vdot (col i (augmented X))
                                             (col j (augmented X)))).
    rewrite (andb_comm (j <? _)%nat).
    destruct (_ && _); [| reflexivity]. now rewrite vdot_comm.
Qed.

Lemma item_first (a : R) (v : Vec) : item (a :: v) 0 = Returned a.
Proof. reflexivity. Qed.

(** X16. The errors of the p-value lines, in the order the cell meets them.
    A dataset with another number of rows than the [n] written in the cell
    raises a shape error at [hstack], whatever the parameters.  With the
    right number of rows, indexing raises an index error only on an array
    without entries: an empty [b], an empty [W] or a [W] with empty rows.
    An index past the end is clamped instead: with a [W] of one row the
    cell reads [W[0][0]] for [W[1][0]] and goes on as for the two rows
    [W[0][0]], [W[0][0]].  And when the three coefficients are read, a
    number of eigenvectors other than three or one raises a shape error at
    the division. *)
Theorem coefficient_p_values_errors (n : nat) (W : Mat) (b : Vec)
  (sigma2 : R) (X : Mat) :
  (length X <> n ->
   coefficient_p_values n W b sigma2 X = Raised ShapeError) /\
  (length X = n ->
   b = [] \/ W = [] \/ hd [] W = [] ->
   coefficient_p_values n W b sigma2 X = Raised IndexError) /\
  (forall b0 bs w0 r,
      b = b0 :: bs -> W = [w0 :: r] ->
      coefficient_p_values n W b sigma2 X
      = coefficient_p_values n [[w0]; [w0]] [b0] sigma2 X) /\
  (forall b0 w0 w1,
      length X = n -> item b 0 = Returned b0 ->
      item2 W 0 0 = Returned w0 -> item2 W 1 0 = Returned w1 ->
      length (snd (eigh (scaled_gram sigma2 X))) <> 3%nat ->
      length (snd (eigh (scaled_gram sigma2 X))) <> 1%nat ->
      coefficient_p_values n W b sigma2 X = Raised ShapeError).
Proof.
  split; [| split; [| split]].
  - intros H. unfold coefficient_p_values.
    now rewrite (hstack_ones_mismatch n X H).
  - intros Hn H. unfold coefficient_p_values.
    rewrite (hstack_ones n X Hn). cbn [bind].
    destruct b as [| b0 bs]; [reflexivity |].
    rewrite item_first. cbn [bind].
    destruct H as [H | [H | H]]; [discriminate | |].
    + now rewrite H.
    + destruct W as [| r0 W']; [reflexivity |].
      cbn [hd] in H. rewrite H. reflexivity.
  - intros b0 bs w0 r -> ->. unfold coefficient_p_values.
    destruct (hstack (ones n) X) as [X_ | x]; reflexivity.
  - intros b0 w0 w1 Hn Hb Hw0 Hw1 H3 H1. unfold coefficient_p_values.
    rewrite (hstack_ones n X Hn), Hb, Hw0, Hw1. cbn [bind].
    fold (augmented X). fold (scaled_gram sigma2 X). fold (W_std sigma2 X).
    assert (Hlen : length (diagv (W_std sigma2 X))
                   = length (snd (eigh (scaled_gram sigma2 X)))).
    { unfold W_std. apply length_W_std_of. }
    rewrite <- Hlen in H3, H1. unfold bdiv. cbn [map length].
    destruct (diagv (W_std sigma2 X)) as [| d0 [| d1 [| d2 [| d3 l]]]];
      cbn [length Nat.eqb bind] in *; try reflexivity; contradiction.
Qed.

Lemma nth_vscal (c : R) (v : Vec) (k : nat) :
  nth k (vscal c v) 0 = c * nth k v 0.
Proof.
  unfold vscal. rewrite <- (map_nth (Rmult c) v 0 k). f_equal. ring.
Qed.

Lemma item_vscal (c : R) (v : Vec) (i : nat) :
  item (vscal c v) i
  = match item v i with
    | Returned x => Returned (c * x)
    | Raised x => Raised x
    end.
Proof.
  destruct v as [| a v]; [reflexivity |].
  unfold item. change (vscal c (a :: v)) with (c * a :: vscal c v).
  f_equal. change (c * a :: vscal c v) with (vscal c (a :: v)).
  rewrite nth_vscal. unfold vscal. now rewrite length_map.
Qed.

Lemma item2_mscal (c : R) (m : Mat) (i j : nat) :
  item2 (mscal c m) i j
  = match item2 m i j with
    | Returned x => Returned (c * x)
    | Raised x => Raised x
    end.
Proof.
  destruct m as [| r m]; [reflexivity |].
  unfold item2. change (mscal c (r :: m)) with (vscal c r :: mscal c m).
  change (vscal c r :: mscal c m) with (mscal c (r :: m)).
  unfold mscal at 1 2. rewrite length_map.
  change (@nil R) with (vscal c []) at 1.
  rewrite (map_nth (vscal c) (r :: m) []). apply item_vscal.
Qed.

Lemma Rabs_minus_one (x : R) : Rabs (-1 * x) = Rabs x.
Proof. replace (-1 * x) with (- x) by ring. apply Rabs_Ropp. Qed.

(** X17. The p-values do not depend on the signs of the coefficients:
    negating [W] and [b] gives the same result, be it the p-values or an
    error. *)
Theorem p_values_ignore_signs (n : nat) (W : Mat) (b : Vec) (sigma2 : R)
  (X : Mat) :
  coefficient_p_values n (mscal (-1) W) (vscal (-1) b) sigma2 X
  = coefficient_p_values n W b sigma2 X.
Proof.
  unfold coefficient_p_values.
  destruct (hstack (ones n) X) as [X_ | x]; [| reflexivity]. cbn [bind].
  rewrite item_vscal, !item2_mscal.
  destruct (item b 0) as [b0 | x]; [| reflexivity]. cbn [bind].
  destruct (item2 W 0 0) as [w0 | x]; [| reflexivity]. cbn [bind].
  destruct (item2 W 1 0) as [w1 | x]; [| reflexivity]. cbn [bind map].
  now rewrite !Rabs_minus_one.
Qed.

End PValueMore.

(* ================================================================== *)
(** ** Data generation, and the regression cell from end to end *)
(* ================================================================== *)

Section DataFacts.
Import Jnp.

Lemma one_column (m : Mat) :
  Forall (fun row => length row = 1%nat) m -> m = column (col 0 m).
Proof.
  unfold column, col. induction m as [| r m IH]; intros H; [reflexivity |].
  inversion H as [| ? ? Hr Hm]; subst. cbn [map].
  rewrite <- (IH Hm). destruct r as [| a [| ? ?]]; try discriminate.
  reflexivity.
Qed.

Lemma length_column (v : Vec) : length (column v) = length v.
Proof. apply length_map. Qed.

Lemma flatten_column (v : Vec) : flatten (column v) = v.
Proof.
  unfold flatten, column. induction v as [| a v IH]; [reflexivity |].
  cbn [map concat app]. now rewrite IH.
Qed.

Lemma mean_msquare_column (v : Vec) :
  mean (msquare (column v))
  = vsum (map (fun t => t ^ 2) v) / INR (length v).
Proof.
  unfold mean. rewrite flatten_msquare, flatten_column.
  now rewrite length_map.
Qed.

(** The arrays of the data cell, written on the columns drawn. *)
Lemma generated_arrays (a c z : Vec) :
  length a = length c -> length c = length z ->
  let y := NNData.madd
             (NNData.madds
                (NNData.madd (mscal (-11) (column a)) (mscal 12 (column c)))
                3)
             (mscal 3 (column z)) in
  let X := map2 (@app R) (column a) (column c) in
  length X = length a /\ length y = length a /\
  Forall (fun row => length row = 2%nat) X /\
  Forall (fun row => length row = 1%nat) y /\
  flatten (msub (NNFeatures.predict (column [-11; 12]) [3] X) y)
  = map (fun t => - (3 * t)) z.
Proof.
  intros Hac Hcz. cbn zeta.
  rewrite (predict_column [-11; 12] 3) by discriminate.
  unfold NNData.madd, NNData.madds, mscal, vscal, vadd, msub, vsub, map2,
    column, flatten, vdot, vsum.
  revert c z Hac Hcz.
  induction a as [| x1 a IH]; intros [| x2 c] [| t z] Hac Hcz;
    try discriminate.
  - repeat split; constructor.
  - injection Hac as Hac. injection Hcz as Hcz.
    destruct (IH c z Hac Hcz) as (H1 & H2 & H3 & H4 & H5).
    cbn [map combine fst snd app length concat fold_right] in *.
    rewrite H1, H2, H5.
    split; [reflexivity | split; [reflexivity |]].
    split; [constructor; [reflexivity | exact H3] |].
    split; [constructor; [reflexivity | exact H4] |].
    f_equal. unfold map2. cbn [combine map fst snd fold_right]. ring.
Qed.

Lemma vsum_scaled_squares (z : Vec) :
  vsum (map (fun r => r ^ 2) (map (fun t => - (3 * t)) z))
  = 9 * vsum (map (fun t => t ^ 2) z).
Proof.
  induction z as [| t z IH]; cbn [map vsum fold_right]; [ring |].
  change (fold_right Rplus 0 ?l) with (vsum l). rewrite IH. ring.
Qed.

End DataFacts.

Section Pipeline.
Context {AD : Differentiation} {RNG : Sampler} {GS : Gaussian} {ST : Stats}.
Import Jnp NNFeatures.

Lemma normal_is_column (key : Key) (n : nat) :
  normal_contract ->
  exists v, normal key n 1 = column v /\ length v = n.
Proof.
  intros Hc. destruct (Hc key n 1%nat) as (Hl & Hrow & _).
  exists (col 0 (normal key n 1)). split.
  - now apply one_column.
  - now rewrite length_col.
Qed.

(** X18. The data cell.  With a generator that returns arrays of the shapes
    asked for, the cell returns [n] samples of two features and [n]
    targets, and the loss of the coefficients the targets were generated
    with, weights -11 and 12 and bias 3, is nine times the mean square of
    the noise drawn. *)
Theorem loss_at_generating_parameters (n : nat) :
  normal_contract ->
  exists X y,
    NNData.make_data n = Returned (PRNGKey 2, X, y) /\
    length X = n /\ length y = n /\
    loss [[-11]; [12]] [3] X y = 9 * mean (msquare (NNData.noise n)).
Proof.
  intros Hc. unfold NNData.make_data, NNData.noise.
  destruct (normal_is_column (fst (split (PRNGKey 2))) n Hc) as (a & -> & Ha).
  destruct (normal_is_column (snd (split (PRNGKey 2))) n Hc) as (c & -> & Hc').
  destruct (normal_is_column (PRNGKey 2) n Hc) as (z & -> & Hz).
  destruct (generated_arrays a c z) as (H1 & H2 & _ & _ & H5);
    [congruence | congruence |].
  unfold hstack. rewrite !length_column, Ha, Hc', Nat.eqb_refl. cbn [bind].
  eexists _, _. split; [reflexivity |].
  split; [congruence | split; [congruence |]].
  change [[-11]; [12]] with (column [-11; 12]).
  rewrite loss_residuals, H5, vsum_scaled_squares, mean_msquare_column.
  rewrite length_map. unfold Rdiv. ring.
Qed.

Lemma regression_start_shapes (n : nat) :
  normal_contract ->
  exists e0,
    NNData.regression_start n = Returned e0 /\
    regression_shapes e0 /\ length (X e0) = n /\ length (W e0) = 2%nat /\
    epoch e0 = 0%nat /\ stdout e0 = [].
Proof.
  intros Hc. unfold NNData.regression_start, NNData.make_data.
  destruct (normal_is_column (fst (split (PRNGKey 2))) n Hc) as (a & -> & Ha).
  destruct (normal_is_column (snd (split (PRNGKey 2))) n Hc) as (c & -> & Hc').
  destruct (normal_is_column (PRNGKey 2) n Hc) as (z & -> & Hz).
  destruct (generated_arrays a c z) as (H1 & H2 & H3 & H4 & _);
    [congruence | congruence |].
  unfold hstack. rewrite !length_column, Ha, Hc', Nat.eqb_refl.
  cbn [bind fst snd].
  eexists. split; [reflexivity |].
  unfold NNData.linear_model. cbn [fst snd].
  destruct (Hc (fst (split (PRNGKey 2))) 2%nat 1%nat) as (HlW & HrW & _).
  destruct (Hc (snd (split (PRNGKey 2))) 1%nat 1%nat) as (_ & _ & Hlb).
  unfold regression_shapes. cbn [X y W b epoch stdout]. rewrite HlW.
  repeat split; try assumption; congruence.
Qed.

Lemma p_values_cell_on_shapes (s : Env) :
  eigh_shape_contract ->
  regression_shapes s -> length (X s) = 1000%nat -> length (W s) = 2%nat ->
  exists p, p_values_cell s = Returned p /\ length p = 3%nat.
Proof.
  intros He (Hy & HX & _ & HW & Hb) Hn H2. rewrite p_values_cell_unfold.
  destruct (b s) as [| b0 [| ? ?]] eqn:Eb; try discriminate.
  destruct (W s) as [| [| w0 [| ? ?]] [| [| w1 [| ? ?]] [| ? ?]]] eqn:EW;
    try discriminate;
    try (exfalso; inversion HW as [| ? ? Hr0 HW1]; subst;
         try discriminate; inversion HW1; subst; discriminate).
  assert (Hg : length (snd (eigh (scaled_gram (loss_val s) (X s)))) = 3%nat).
  { rewrite He, scaled_gram_table, length_map, length_seq.
    destruct (X s) as [| r Xs]; [discriminate |].
    inversion HX as [| ? ? Hr _]; subst. cbn. now rewrite Hr. }
  rewrite (coefficient_p_values_returns 1000 _ _ _ _ b0 w0 w1)
    by (repeat split; assumption).
  eexists. split; [reflexivity |].
  rewrite length_map2. cbn [length]. unfold W_std.
  now rewrite length_W_std_of, Hg.
Qed.

(** X19. The regression cell from its first line to its last, for a
    generator, a gradient and an [eigh] that return arrays of the shapes
    they promise.  The data have the cell's 1000 rows and the arrays the
    notebook's shapes; they keep them through every pass of the loop; and
    at the end of every pass, hence whenever the loop stops, the p-value
    lines return three p-values: no shape or index error can occur. *)
Theorem regression_cell_shape_safe (k : nat) :
  normal_contract -> grad_shape_contract -> eigh_shape_contract ->
  exists e0,
    NNData.regression_start 1000 = Returned e0 /\
    regression_shapes (epoch_end (1 / 100) k (restart e0)) /\
    exists p,
      p_values_cell (epoch_end (1 / 100) k (restart e0)) = Returned p /\
      length p = 3%nat.
Proof.
  intros Hn Hg He.
  destruct (regression_start_shapes 1000 Hn)
    as (e0 & H0 & Hs & HX & HW & _ & _).
  exists e0. split; [exact H0 |].
  assert (Hr : regression_shapes (restart e0)) by exact Hs.
  destruct (epoch_start_data (1 / 100) k (restart e0)) as (HXk & _).
  pose proof (epoch_end_shapes (1 / 100) (restart e0) k Hg Hr) as Hend.
  split; [exact Hend |].
  apply (p_values_cell_on_shapes _ He Hend).
  - unfold epoch_end.
    change (X (full_batch_body (1 / 100)
                 (epoch_start (1 / 100) k (restart e0))))
      with (X (epoch_start (1 / 100) k (restart e0))).
    rewrite HXk. exact HX.
  - destruct Hend as (_ & HXr & _).
    unfold epoch_end in *.
    change (X (full_batch_body (1 / 100)
                 (epoch_start (1 / 100) k (restart e0))))
      with (X (epoch_start (1 / 100) k (restart e0))) in HXr.
    rewrite HXk in HXr. change (X (restart e0)) with (X e0) in HXr.
    destruct Hs as (_ & Hrow & _).
    destruct (X e0) as [| r Xs]; [discriminate |].
    pose proof (Forall_inv HXr) as Hlen.
    pose proof (Forall_inv Hrow) as Hl0. cbv beta in Hlen, Hl0.
    change (W (restart e0)) with (W e0) in *. congruence.
Qed.

End Pipeline.

(* ================================================================== *)
(** ** The notebook comparing inner products, continued *)
(* ================================================================== *)

Section InnerProductsMore.
Import Jnp JaxAsNumpy.






End InnerProductsMore.

(* ================================================================== *)
(** ** The exact gradient of the loss *)
(* ================================================================== *)

Section ExactGradient.
Import Jnp.

Lemma vdot_cons (a c : R) (u v : Vec) :
  vdot (a :: u) (c :: v) = a * c + vdot u v.
Proof. reflexivity. Qed.

Lemma vdot_nil_l (v : Vec) : vdot [] v = 0.
Proof. reflexivity. Qed.

Lemma vset_cons (w : R) (ws : Vec) (i : nat) (t : R) :
  Autodiff.vset (w :: ws) (S i) t = w :: Autodiff.vset ws i t.
Proof. reflexivity. Qed.

Lemma vset_not_nil (ws : Vec) (i : nat) (t : R) : Autodiff.vset ws i t <> [].
Proof.
  unfold Autodiff.vset. intros H. symmetry in H.
  now apply app_cons_not_nil in H.
Qed.

(** Changing one weight changes every prediction by the change times the
    sample's entry in that position. *)
Lemma vdot_vset (x ws : Vec) (i : nat) (t : R) :
  (i < length ws)%nat ->
  vdot x (Autodiff.vset ws i t) = vdot x ws + nth i x 0 * (t - nth i ws 0).
Proof.
  revert x ws. induction i as [| i IH]; intros x [| w ws] Hi;
    try (cbn in Hi; lia).
  - unfold Autodiff.vset. cbn [firstn skipn app].
    destruct x as [| a x]; [rewrite !vdot_nil_l; cbn; ring |].
    rewrite !vdot_cons. cbn [nth]. ring.
  - rewrite vset_cons.
    destruct x as [| a x]; [rewrite !vdot_nil_l; cbn; ring |].
    rewrite !vdot_cons, IH by (cbn in Hi; lia). cbn [nth]. ring.
Qed.

Lemma nth_column (ws : Vec) (i : nat) :
  (i < length ws)%nat -> nth i (column ws) [] = [nth i ws 0].
Proof.
  intros Hi. unfold column.
  rewrite (nth_indep _ [] [0]) by now rewrite length_map.
  apply (map_nth (fun t => [t]) ws 0 i).
Qed.

Lemma mset_column (ws : Vec) (i : nat) (t : R) :
  (i < length ws)%nat ->
  Autodiff.mset (column ws) i 0 t = column (Autodiff.vset ws i t).
Proof.
  intros Hi. unfold Autodiff.mset. rewrite (nth_column ws i Hi).
  unfold Autodiff.vset at 2. unfold column.
  rewrite map_app, firstn_map, skipn_map. reflexivity.
Qed.

(** The derivative of a sum of squares of affine functions. *)
Lemma derivable_pt_lim_sum_squares (l : list (R * R)) (x : R) :
  derivable_pt_lim
    (fun t => vsum (map (fun p => (fst p * t + snd p) ^ 2) l)) x
    (2 * vsum (map (fun p => fst p * (fst p * x + snd p)) l)).
Proof.
  induction l as [| [a k] l IH]; cbn [map vsum fold_right fst snd].
  - rewrite Rmult_0_r. apply (derivable_pt_lim_const 0 x).
  - change (fold_right Rplus 0 ?v) with (vsum v).
    replace (2 * (a * (a * x + k)
                  + vsum (map (fun p => fst p * (fst p * x + snd p)) l)))
      with (2 * a * (a * x + k)
            + 2 * vsum (map (fun p => fst p * (fst p * x + snd p)) l))
      by ring.
    apply (derivable_pt_lim_plus
             (fun t => (a * t + k) ^ 2)
             (fun t => vsum (map (fun p => (fst p * t + snd p) ^ 2) l))).
    + apply derivable_pt_lim_sq_affine.
    + exact IH.
Qed.

Lemma grad_mean_squares (l : list (R * R)) (n x : R) (F : R -> R) :
  (forall t, F t = vsum (map (fun p => (fst p * t + snd p) ^ 2) l) / n) ->
  Autodiff.grad F x
  = 2 / n * vsum (map (fun p => fst p * (fst p * x + snd p)) l).
Proof.
  intros HF. apply grad_eq.
  apply derivable_pt_lim_ext
    with (g2 := mult_real_fct (/ n)
                  (fun t => vsum (map (fun p => (fst p * t + snd p) ^ 2) l))).
  - intros t. rewrite HF. unfold mult_real_fct, Rdiv. ring.
  - replace (2 / n * vsum (map (fun p => fst p * (fst p * x + snd p)) l))
      with (/ n * (2 * vsum (map (fun p => fst p * (fst p * x + snd p)) l)))
      by (unfold Rdiv; ring).
    apply derivable_pt_lim_scal. apply derivable_pt_lim_sum_squares.
Qed.

Lemma vsum_map2_ext {A B} (g h : A -> B -> R) (u : list A) (v : list B) :
  (forall a c, g a c = h a c) -> vsum (map2 g u v) = vsum (map2 h u v).
Proof.
  intros H. unfold map2. f_equal. apply map_ext. intros p. apply H.
Qed.

(** The sum over the samples of the entry in position [j] times the
    residual is the inner product of column [j] with the residuals. *)
Lemma column_times_residuals (j : nat) (ws : Vec) (b0 : R) (X : Mat)
  (ts : Vec) :
  vsum (map2 (fun x t => nth j x 0 * (vdot x ws + b0 - t)) X ts)
  = vdot (col j X) (map2 (fun x t => vdot x ws + b0 - t) X ts).
Proof.
  unfold vdot at 2. unfold col, map2. revert ts.
  induction X as [| x X IH]; intros [| t ts]; try reflexivity.
  cbn [map combine fst snd vsum fold_right].
  change (fold_right Rplus 0 ?v) with (vsum v). now rewrite IH.
Qed.

Lemma column_map {A} (g : A -> R) (l : list A) :
  column (map g l) = map (fun j => [g j]) l.
Proof. unfold column. apply map_map. Qed.

Lemma map_map2 {A B C D} (g : C -> D) (h : A -> B -> C) (u : list A)
  (v : list B) :
  map g (map2 h u v) = map2 (fun a c => g (h a c)) u v.
Proof. unfold map2. now rewrite map_map. Qed.

End ExactGradient.

(** The exact gradient of the loss in a column of weights and a bias. *)
Lemma exact_grad01_columns (ws : Jnp.Vec) (b0 : R) (X : Jnp.Mat)
  (ts : Jnp.Vec) :
  ws <> [] -> X <> [] -> length X = length ts ->
  let r := Jnp.map2 (fun x t => Jnp.vdot x ws + b0 - t) X ts in
  @grad01 exact_diff NNFeatures.loss (column ws) [b0] X (column ts)
  = (column (map (fun j => 2 / INR (length X) * Jnp.vdot (Jnp.col j X) r)
                 (seq 0 (length ws))),
     [2 / INR (length X) * Jnp.vsum r]).
Proof.
  intros Hws _ Hl. cbn zeta. cbn [grad01 exact_diff]. unfold Autodiff.grad01.
  assert (Hmin : Nat.min (length X) (length ts) = length X).
  { rewrite Hl. apply Nat.min_id. }
  f_equal.
  - rewrite column_map, length_column.
    apply map_ext_in. intros j Hj. apply in_seq in Hj.
    rewrite (nth_column ws j) by lia. cbn [length seq map nth]. f_equal.
    rewrite <- column_times_residuals.
    rewrite (grad_mean_squares
               (Jnp.map2 (fun x t => (nth j x 0,
                                      Jnp.vdot x ws + b0 - t
                                      - nth j x 0 * nth j ws 0)) X ts)
               (INR (length X))).
    + f_equal. rewrite map_map2. apply vsum_map2_ext.
      intros x t. cbn [fst snd]. ring.
    + intros t. rewrite (mset_column ws j t) by lia.
      unfold column.
      rewrite (loss_mean_squared_residuals _ b0 X ts (vset_not_nil ws j t)).
      rewrite Hmin. f_equal. rewrite map_map2. apply vsum_map2_ext.
      intros x ti. cbn [fst snd]. rewrite (vdot_vset x ws j t) by lia. ring.
  - cbn [length seq map nth]. f_equal.
    rewrite (grad_mean_squares
               (Jnp.map2 (fun x t => (1, Jnp.vdot x ws - t)) X ts)
               (INR (length X))).
    + f_equal. rewrite map_map2. apply vsum_map2_ext.
      intros x t. cbn [fst snd]. ring.
    + intros t. unfold Autodiff.vset. cbn [firstn skipn app].
      unfold column.
      rewrite (loss_mean_squared_residuals ws t X ts Hws).
      rewrite Hmin. f_equal. rewrite map_map2. apply vsum_map2_ext.
      intros x ti. cbn [fst snd]. ring.
Qed.

(** X22. Under exact differentiation the gradient the loops take is the
    gradient of least squares.  With [r] the residuals [x . w + b - t] of
    the [N] samples, the gradient in the weight [j] is [2/N] times the
    inner product of column [j] of the data with [r], and the gradient in
    the bias is [2/N] times the sum of [r]. *)
Theorem exact_gradient_of_loss (ws : Jnp.Vec) (b0 : R) (X : Jnp.Mat)
  (ts : Jnp.Vec) :
  regression_data ws X ts ->
  let r := Jnp.map2 (fun x t => Jnp.vdot x ws + b0 - t) X ts in
  @grad01 exact_diff NNFeatures.loss (column ws) [b0] X (column ts)
  = (column (map (fun j => 2 / INR (length X) * Jnp.vdot (Jnp.col j X) r)
                 (seq 0 (length ws))),
     [2 / INR (length X) * Jnp.vsum r]).
Proof.
  intros (Hws & HX & Hl & _). exact (exact_grad01_columns ws b0 X ts Hws HX Hl).
Qed.

Lemma exact_gradient_of_loss_witness :
  @grad01 exact_diff NNFeatures.loss (column [1; 2]) [3]
    [[1; 0]; [0; 1]] (column [5; 4])
  = (column
       (map (fun j =>
               2 / INR 2
               * Jnp.vdot (Jnp.col j [[1; 0]; [0; 1]])
                   (Jnp.map2 (fun x t => Jnp.vdot x [1; 2] + 3 - t)
                      [[1; 0]; [0; 1]] [5; 4]))
            (seq 0 2)),
     [2 / INR 2
      * Jnp.vsum (Jnp.map2 (fun x t => Jnp.vdot x [1; 2] + 3 - t)
                    [[1; 0]; [0; 1]] [5; 4])]).
Proof.
  apply (exact_gradient_of_loss [1; 2] 3 [[1; 0]; [0; 1]] [5; 4]).
  split; [discriminate | split; [discriminate | split; [reflexivity |]]].
  repeat constructor.
Defined.

Section DescentSteps.
Import Jnp NNFeatures.
#[local] Existing Instance exact_diff.

Lemma map2_seq {A} (h : R -> A -> R) (ws : Vec) (G : nat -> A) :
  map2 h ws (map G (seq 0 (length ws)))
  = map (fun j => h (nth j ws 0) (G j)) (seq 0 (length ws)).
Proof.
  unfold map2. revert G. induction ws as [| w ws IH]; intros G;
    [reflexivity |].
  cbn [length seq map combine fst snd nth]. f_equal.
  rewrite <- seq_shift, !map_map. apply (IH (fun j => G (S j))).
Qed.

Lemma msub_columns (lr : R) (u v : Vec) :
  msub (column u) (mscal lr (column v))
  = column (map2 (fun w g => w - lr * g) u v).
Proof.
  unfold msub, mscal, vscal, vsub, column, map2. revert v.
  induction u as [| a u IH]; intros [| c v]; try reflexivity.
  cbn [map combine fst snd]. f_equal. apply IH.
Qed.

Lemma mscal_mdivs (c k : R) (m : Mat) :
  mscal c (mdivs m k) = mscal (c / k) m.
Proof.
  unfold mscal, mdivs, vscal, vdivs. rewrite map_map. apply map_ext.
  intros r. rewrite map_map. apply map_ext. intros v. unfold Rdiv. ring.
Qed.

Lemma vscal_vdivs (c k : R) (v : Vec) :
  vscal c (vdivs v k) = vscal (c / k) v.
Proof.
  unfold vscal, vdivs. rewrite map_map. apply map_ext.
  intros t. unfold Rdiv. ring.
Qed.

Lemma take_rows_column (ts : Vec) (idx : list nat) :
  Forall (fun i => (i < length ts)%nat) idx ->
  take_rows (column ts) idx = column (map (fun i => nth i ts 0) idx).
Proof.
  intros H. unfold take_rows. unfold column at 2. rewrite map_map.
  apply map_ext_in. intros i Hi.
  apply nth_column. rewrite Forall_forall in H. now apply H.
Qed.

(** The parameters an exact gradient step leaves, for a step size [eta]. *)
Lemma descent_step (eta : R) (ws : Vec) (b0 : R) (X : Mat) (ts : Vec) :
  ws <> [] -> X <> [] -> length X = length ts ->
  let r := map2 (fun x t => vdot x ws + b0 - t) X ts in
  let g := grad01 loss (column ws) [b0] X (column ts) in
  msub (column ws) (mscal eta (fst g))
  = column (map (fun j => nth j ws 0
                          - eta * (2 / INR (length X) * vdot (col j X) r))
                (seq 0 (length ws))) /\
  vsub [b0] (vscal eta (snd g))
  = [b0 - eta * (2 / INR (length X) * vsum r)].
Proof.
  intros Hws HX Hl. cbn zeta.
  rewrite (exact_grad01_columns ws b0 X ts Hws HX Hl). cbn [fst snd].
  split; [| reflexivity].
  rewrite msub_columns. f_equal.
  apply (map2_seq (fun w g => w - eta * g) ws).
Qed.

(** X23. One epoch of the full-batch loop under exact differentiation is a
    step of least-squares gradient descent: with [r] the residuals of the
    [N] samples, weight [j] loses [learning_rate * (2/N)] times the inner
    product of column [j] of the data with [r], and the bias loses
    [learning_rate * (2/N)] times the sum of [r]. *)
Theorem full_batch_epoch_is_descent_step {RNG : Sampler}
  (learning_rate : R) (e : Env) (ws : Vec) (b0 : R) (ts : Vec) :
  W e = column ws -> b e = [b0] -> y e = column ts ->
  regression_data ws (X e) ts ->
  let r := map2 (fun x t => vdot x ws + b0 - t) (X e) ts in
  let e' := full_batch_body learning_rate e in
  W e' = column (map (fun j => nth j ws 0
                               - learning_rate
                                 * (2 / INR (length (X e))
                                    * vdot (col j (X e)) r))
                     (seq 0 (length ws))) /\
  b e' = [b0 - learning_rate * (2 / INR (length (X e)) * vsum r)] /\
  loss_val e' = vsum (map (fun v => v ^ 2) r) / INR (length (X e)).
Proof.
  intros HW Hb Hy (Hws & HX & Hl & _). cbn zeta.
  destruct (descent_step learning_rate ws b0 (X e) ts Hws HX Hl)
    as (H1 & H2). cbn zeta in H1, H2.
  cbn [full_batch_body W b loss_val]. rewrite HW, Hb, Hy.
  split; [exact H1 | split; [exact H2 |]].
  rewrite loss_residuals, (residuals_column ws b0 (X e) ts Hws).
  now rewrite length_map2, <- Hl, Nat.min_id.
Qed.

(** X24. The fixed points of the full-batch epoch under exact
    differentiation are the least-squares solutions: with a learning rate
    other than zero, an epoch leaves the parameters as they were exactly
    when the residuals are orthogonal to every column of the data and sum
    to zero. *)
Theorem full_batch_fixed_points {RNG : Sampler}
  (learning_rate : R) (e : Env) (ws : Vec) (b0 : R) (ts : Vec) :
  W e = column ws -> b e = [b0] -> y e = column ts ->
  regression_data ws (X e) ts ->
  learning_rate <> 0 ->
  let r := map2 (fun x t => vdot x ws + b0 - t) (X e) ts in
  let e' := full_batch_body learning_rate e in
  (W e' = W e /\ b e' = b e) <->
  ((forall j, (j < length ws)%nat -> vdot (col j (X e)) r = 0) /\
   vsum r = 0).
Proof.
  intros HW Hb Hy (Hws & HX & Hl & _) Hlr. cbn zeta.
  destruct (descent_step learning_rate ws b0 (X e) ts Hws HX Hl)
    as (H1 & H2). cbn zeta in H1, H2.
  cbn [full_batch_body W b]. rewrite HW, Hb, Hy, H1, H2.
  set (r := map2 (fun x t => vdot x ws + b0 - t) (X e) ts).
  assert (HN : 0 < INR (length (X e))).
  { apply lt_0_INR. destruct (X e); [contradiction | cbn; lia]. }
  assert (Hz : forall v, learning_rate * (2 / INR (length (X e)) * v) = 0
                         <-> v = 0).
  { intros v. split; intros H; [| rewrite H; ring].
    apply Rmult_integral in H. destruct H as [H | H]; [contradiction |].
    apply Rmult_integral in H. destruct H as [H | H]; [| exact H].
    exfalso. apply (Rmult_eq_compat_r (INR (length (X e)))) in H.
    unfold Rdiv in H. rewrite Rmult_assoc, Rinv_l, Rmult_0_l in H by lra.
    lra. }
  assert (Hid : map (fun j => nth j ws 0) (seq 0 (length ws)) = ws).
  { rewrite (map_nth_seq (fun w => w) ws 0). apply map_id. }
  split.
  - intros (HW' & Hb'). split.
    + intros j Hj. apply Hz.
      apply (f_equal (col 0)) in HW'. unfold column in HW'.
      rewrite !col0_column in HW'. rewrite <- Hid in HW' at 2.
      assert (Hin : In j (seq 0 (length ws))) by (apply in_seq; lia).
      pose proof (proj1 map_ext_in_iff HW' j Hin) as Hj'.
      cbv beta in Hj'. lra.
    + apply Hz. injection Hb' as Hb'. lra.
  - intros (Hcols & Hsum). split.
    + f_equal. rewrite <- Hid at 2. apply map_ext_in. intros j Hj.
      apply in_seq in Hj.
      rewrite (proj2 (Hz _) (Hcols j ltac:(lia))). ring.
    + rewrite (proj2 (Hz _) Hsum). f_equal. ring.
Qed.

(** X25. One batch update of the mini-batch loop under exact
    differentiation, on a batch of [batch_size] rows of the dataset: the
    loss is already the mean over the batch and its gradient is divided by
    [batch_size] once more, so that with [r] the residuals of the batch,
    weight [j] loses [learning_rate * 2 / batch_size^2] times the inner
    product of column [j] of the batch with [r], and likewise the bias. *)
Theorem minibatch_update_divides_twice (learning_rate : R)
  (batch_size : nat) (X : Mat) (ws : Vec) (b0 : R) (ts : Vec)
  (idx : list nat) :
  regression_data ws X ts ->
  length idx = batch_size -> (0 < batch_size)%nat ->
  Forall (fun i => (i < length X)%nat) idx ->
  let X_batch := take_rows X idx in
  let t_batch := map (fun i => nth i ts 0) idx in
  let r := map2 (fun x t => vdot x ws + b0 - t) X_batch t_batch in
  sgd_update learning_rate batch_size X (column ts) (column ws, [b0]) idx
  = (column (map (fun j => nth j ws 0
                           - learning_rate * 2
                             / (INR batch_size * INR batch_size)
                             * vdot (col j X_batch) r)
                 (seq 0 (length ws))),
     [b0 - learning_rate * 2 / (INR batch_size * INR batch_size) * vsum r]).
Proof.
  intros (Hws & _ & Hl & _) Hbs Hpos Hidx. cbn zeta.
  unfold sgd_update. cbn [fst snd].
  rewrite mscal_mdivs, vscal_vdivs.
  rewrite take_rows_column by (rewrite <- Hl; exact Hidx).
  assert (Hlen : length (take_rows X idx) = batch_size).
  { unfold take_rows. now rewrite length_map. }
  assert (HXb : take_rows X idx <> []).
  { intros H. rewrite H in Hlen. cbn in Hlen. lia. }
  assert (Hlt : length (take_rows X idx)
                = length (map (fun i => nth i ts 0) idx)).
  { now rewrite Hlen, length_map. }
  destruct (descent_step (learning_rate / INR batch_size) ws b0 _ _
              Hws HXb Hlt) as (H1 & H2).
  cbn zeta in H1, H2. rewrite H1, H2, Hlen.
  assert (Hn : INR batch_size <> 0).
  { apply not_0_INR. lia. }
  f_equal.
  - f_equal. apply map_ext. intros j. field. exact Hn.
  - f_equal. field. exact Hn.
Qed.

End DescentSteps.

(* ================================================================== *)
(** ** Full-batch descent on one sample, under exact differentiation *)
(* ================================================================== *)

Section FirstStop.
Context {AD : Differentiation} {RNG : Sampler}.
Import Jnp NNFeatures.

(** An epoch at which the test holds is preceded by a first one. *)
Lemma first_stop (lr tol : R) (k : nat) :
  forall e,
    stops_at lr tol e k ->
    exists k0, (k0 <= k)%nat /\ stops_at lr tol e k0 /\
               forall j, (j < k0)%nat -> ~ stops_at lr tol e j.
Proof.
  induction k as [| k IH]; intros e Hk.
  - exists 0%nat. split; [lia | split; [exact Hk |]]. intros j Hj. lia.
  - destruct (converged tol (epoch_end lr 0 e)) eqn:Hc.
    + exists 0%nat. split; [lia | split].
      * now apply converged_epoch_end.
      * intros j Hj. lia.
    + assert (H0 : ~ stops_at lr tol e 0).
      { rewrite <- converged_epoch_end, Hc. discriminate. }
      pose proof (proj1 (stops_at_shift lr tol k e) Hk) as Hk'.
      destruct (IH _ Hk') as (k0 & Hle & Hs & Hmin).
      exists (S k0). split; [lia | split].
      * exact (proj2 (stops_at_shift lr tol k0 e) Hs).
      * intros [| j] Hj; [exact H0 |].
        intros Hj'. apply (Hmin j); [lia |].
        exact (proj1 (stops_at_shift lr tol j e) Hj').
Qed.

End FirstStop.

Section OneSample.
Import Jnp NNFeatures.
#[local] Existing Instance exact_diff.
#[local] Existing Instance seeded_sampler.

(** The residual of the sample at the start of epoch [k]. *)
Lemma single_residual (lr x t w c : R) (k : nat) :
  let s := epoch_start lr k (single_env x t w c) in
  exists w' c',
    W s = [[w']] /\ b s = [c'] /\
    x * w' + c' - t
    = (1 - 2 * lr * (x * x + 1)) ^ k * (x * w + c - t).
Proof.
  induction k as [| k IH]; cbn zeta.
  - exists w, c. cbn. repeat split. ring.
  - cbn zeta in IH. destruct IH as (w' & c' & HW & Hb & Hr).
    rewrite epoch_start_S. unfold epoch_end.
    destruct (epoch_start_data lr k (single_env x t w c)) as (HX & Hy & _).
    destruct (full_batch_body_single lr x t w' c' _ HX Hy HW Hb)
      as (HW' & Hb').
    cbn [W b next_epoch]. rewrite HW', Hb'.
    eexists _, _. split; [reflexivity | split; [reflexivity |]].
    transitivity ((1 - 2 * lr * (x * x + 1)) * (x * w' + c' - t));
      [ring | rewrite Hr; cbn [pow]; ring].
Qed.

(** The test at epoch [k], on the residual the run started with. *)
Lemma single_stops_at (lr tol x t w c : R) (k : nat) :
  stops_at lr tol (single_env x t w c) k <->
  Rabs (2 * lr * x * ((1 - 2 * lr * (x * x + 1)) ^ k * (x * w + c - t)))
  < tol /\
  Rabs (2 * lr * ((1 - 2 * lr * (x * x + 1)) ^ k * (x * w + c - t))) < tol.
Proof.
  unfold stops_at; cbn zeta.
  destruct (single_residual lr x t w c k) as (w' & c' & HW & Hb & Hr).
  destruct (epoch_start_data lr k (single_env x t w c)) as (HX & Hy & _).
  destruct (full_batch_body_single lr x t w' c' _ HX Hy HW Hb)
    as (HW' & Hb').
  unfold epoch_end. rewrite HW', Hb', HW, Hb, <- Hr.
  change (msub [[?a]] [[?d]]) with [[a - d]].
  change (vsub [?a] [?d]) with [a - d].
  rewrite mnorm_single, vnorm_single.
  replace (w' - lr * (2 * x * (x * w' + c' - t)) - w')
    with (- (2 * lr * x * (x * w' + c' - t))) by ring.
  replace (c' - lr * (2 * (x * w' + c' - t)) - c')
    with (- (2 * lr * (x * w' + c' - t))) by ring.
  rewrite !Rabs_Ropp. reflexivity.
Qed.

End OneSample.

(** X26. Full-batch descent on one sample [(x, t)] with exact gradients
    multiplies the residual [x w + b - t] by [1 - 2 lr (x^2 + 1)] in every
    epoch. *)
Theorem single_sample_residual (lr x t w c : R) (k : nat) :
  let s := @epoch_start exact_diff seeded_sampler lr k (single_env x t w c) in
  exists w' c',
    NNFeatures.W s = [[w']] /\ NNFeatures.b s = [c'] /\
    x * w' + c' - t
    = (1 - 2 * lr * (x * x + 1)) ^ k * (x * w + c - t).
Proof. exact (single_residual lr x t w c k). Qed.

(** X27. When that factor is below 1 in absolute value, the loop stops for
    every positive tolerance: some number of epochs is enough, and any
    larger allowance returns the same state. *)
Theorem single_sample_terminates (lr tol x t w c : R) :
  Rabs (1 - 2 * lr * (x * x + 1)) < 1 -> 0 < tol ->
  exists k r,
    forall fuel, (k < fuel)%nat ->
      @NNFeatures.fit_full_batch exact_diff seeded_sampler lr tol fuel
        (single_env x t w c) = Some r.
Proof.
  intros Hrho Htol.
  set (rho := 1 - 2 * lr * (x * x + 1)) in *.
  set (r0 := x * w + c - t).
  set (m := Rabs (2 * lr * x * r0) + Rabs (2 * lr * r0) + 1).
  assert (Hm : 0 < m).
  { unfold m. pose proof (Rabs_pos (2 * lr * x * r0)).
    pose proof (Rabs_pos (2 * lr * r0)). lra. }
  assert (Hy : 0 < tol / m) by now apply Rdiv_lt_0_compat.
  destruct (pow_lt_1_zero rho Hrho (tol / m) Hy) as (N & HN).
  specialize (HN N (Nat.le_refl N)).
  assert (Hstop : @stops_at exact_diff seeded_sampler lr tol
                    (single_env x t w c) N).
  { apply single_stops_at. fold rho r0.
    assert (Hb : forall a, Rabs a <= m - 1 ->
                           Rabs (a * rho ^ N) < tol).
    { intros a Ha. rewrite Rabs_mult.
      apply Rle_lt_trans with (m * Rabs (rho ^ N)).
      - pose proof (Rabs_pos (rho ^ N)). nra.
      - apply Rlt_le_trans with (m * (tol / m)).
        + apply Rmult_lt_compat_l; assumption.
        + right. field. lra. }
    split.
    - replace (2 * lr * x * (rho ^ N * r0))
        with (2 * lr * x * r0 * rho ^ N) by ring.
      apply Hb. unfold m. pose proof (Rabs_pos (2 * lr * r0)). lra.
    - replace (2 * lr * (rho ^ N * r0))
        with (2 * lr * r0 * rho ^ N) by ring.
      apply Hb. unfold m. pose proof (Rabs_pos (2 * lr * x * r0)). lra. }
  destruct (first_stop lr tol N _ Hstop) as (k0 & _ & Hs & Hmin).
  exists k0, (@epoch_end exact_diff seeded_sampler lr k0 (single_env x t w c)).
  intros fuel Hf. apply fit_full_batch_some.
  exists k0. split; [exact Hf | split; [reflexivity | split; assumption]].
Qed.

Lemma single_sample_terminates_witness :
  exists k r,
    forall fuel, (k < fuel)%nat ->
      @NNFeatures.fit_full_batch exact_diff seeded_sampler (1 / 100)
        (1 / 100000) fuel (single_env 2 5 1 0) = Some r.
Proof.
  apply (single_sample_terminates (1 / 100) (1 / 100000) 2 5 1 0).
  - replace (1 - 2 * (1 / 100) * (2 * 2 + 1)) with (9 / 10) by field.
    rewrite Rabs_pos_eq; lra.
  - lra.
Defined.

(** X28. When that factor is at least 1 in absolute value and the first
    update of the bias is not below the tolerance, the loop never stops:
    no number of epochs makes it return. *)
Theorem single_sample_never_stops (lr tol x t w c : R) (fuel : nat) :
  1 <= Rabs (1 - 2 * lr * (x * x + 1)) ->
  tol <= Rabs (2 * lr * (x * w + c - t)) ->
  @NNFeatures.fit_full_batch exact_diff seeded_sampler lr tol fuel
    (single_env x t w c) = None.
Proof.
  intros Hrho Htol.
  destruct (NNFeatures.fit_full_batch lr tol fuel (single_env x t w c))
    as [r |] eqn:H; [| reflexivity].
  exfalso. apply fit_full_batch_some in H.
  destruct H as (k & _ & _ & Hk & _).
  apply single_stops_at in Hk. destruct Hk as (_ & Hb).
  replace (2 * lr * ((1 - 2 * lr * (x * x + 1)) ^ k * (x * w + c - t)))
    with ((1 - 2 * lr * (x * x + 1)) ^ k * (2 * lr * (x * w + c - t)))
    in Hb by ring.
  rewrite Rabs_mult, <- RPow_abs in Hb.
  pose proof (pow_R1_Rle _ k Hrho) as Hp.
  pose proof (Rabs_pos (2 * lr * (x * w + c - t))). nra.
Qed.

Lemma single_sample_never_stops_witness :
  @NNFeatures.fit_full_batch exact_diff seeded_sampler (1 / 100) (1 / 100000)
    50 (single_env 20 0 1 0) = None.
Proof.
  apply (single_sample_never_stops (1 / 100) (1 / 100000) 20 0 1 0 50).
  - replace (1 - 2 * (1 / 100) * (20 * 20 + 1)) with (- (702 / 100)) by field.
    rewrite Rabs_Ropp, Rabs_pos_eq; lra.
  - replace (2 * (1 / 100) * (20 * 1 + 0 - 0)) with (4 / 10) by field.
    rewrite Rabs_pos_eq; lra.
Defined.

(* ================================================================== *)
(** ** The contracts on the implementations of the concrete runs *)
(* ================================================================== *)

Lemma exact_diff_shape_contract : @grad_shape_contract exact_diff.
Proof.
  intros W b X y. cbn [grad01 exact_diff]. unfold Autodiff.grad01.
  cbn [fst snd]. split.
  - unfold shape. rewrite map_map.
    rewrite <- (map_nth_seq (@length R) W []). apply map_ext.
    intros i. now rewrite length_map, length_seq.
  - now rewrite length_map, length_seq.
Qed.

Lemma constant_gaussian_contract : @normal_contract seeded_sampler
                                     constant_gaussian.
Proof.
  intros key r c. cbn [normal normal1 constant_gaussian].
  split; [apply repeat_length | split; [| apply repeat_length]].
  apply Forall_forall. intros row Hin. apply repeat_spec in Hin.
  subst. apply repeat_length.
Qed.

Lemma stats_identity_contract : @eigh_shape_contract stats_identity.
Proof.
  intros S. cbn [eigh stats_identity snd]. unfold Jnp.diagm.
  now rewrite length_map, length_seq, repeat_length.
Qed.

Lemma single_env_shapes (x t w c : R) :
  @regression_shapes seeded_sampler (single_env x t w c).
Proof.
  unfold regression_shapes. cbn.
  repeat split; repeat constructor.
Qed.

(* ================================================================== *)
(** ** The further properties at concrete inputs *)
(* ================================================================== *)

Lemma nonpositive_tolerance_never_returns_witness :
  @NNFeatures.fit_full_batch exact_diff seeded_sampler (1 / 100) 0 50
    (single_env 1 1 1 0) = None /\
  @NNFeatures.fit_minibatch exact_diff seeded_sampler (1 / 100) 16 100 0 50
    (single_env 1 1 1 0) = None.
Proof.
  apply (@nonpositive_tolerance_never_returns exact_diff seeded_sampler
           (1 / 100) 0 16 99 50 (single_env 1 1 1 0)).
  lra.
Defined.

Lemma optimum_returns :
  @NNFeatures.fit_full_batch exact_diff seeded_sampler (1 / 100)
    (1 / 100000) 3 (single_env 1 1 1 0)
  = Some (@epoch_end exact_diff seeded_sampler (1 / 100) 0
            (single_env 1 1 1 0)).
Proof.
  apply fit_full_batch_some. exists 0%nat.
  split; [lia | split; [reflexivity | split]].
  - exact optimum_stops_at_once.
  - intros j Hj. lia.
Qed.

Lemma full_batch_result_state_witness :
  let e := single_env 1 1 1 0 in
  let r := @epoch_end exact_diff seeded_sampler (1 / 100) 0 e in
  NNFeatures.X r = NNFeatures.X e /\ NNFeatures.y r = NNFeatures.y e /\
  (NNFeatures.epoch e <= NNFeatures.epoch r < NNFeatures.epoch e + 3)%nat /\
  NNFeatures.loss_val r
  = NNFeatures.loss (NNFeatures.old_W r) (NNFeatures.old_b r)
      (NNFeatures.X e) (NNFeatures.y e) /\
  NNFeatures.W r
  = Jnp.msub (NNFeatures.old_W r)
      (Jnp.mscal (1 / 100)
         (fst (@grad01 exact_diff NNFeatures.loss (NNFeatures.old_W r)
                 (NNFeatures.old_b r) (NNFeatures.X e) (NNFeatures.y e)))) /\
  NNFeatures.b r
  = Jnp.vsub (NNFeatures.old_b r)
      (Jnp.vscal (1 / 100)
         (snd (@grad01 exact_diff NNFeatures.loss (NNFeatures.old_W r)
                 (NNFeatures.old_b r) (NNFeatures.X e) (NNFeatures.y e)))) /\
  Jnp.mnorm (Jnp.msub (NNFeatures.W r) (NNFeatures.old_W r)) < 1 / 100000 /\
  Jnp.vnorm (Jnp.vsub (NNFeatures.b r) (NNFeatures.old_b r)) < 1 / 100000.
Proof.
  apply (@full_batch_result_state exact_diff seeded_sampler (1 / 100)
           (1 / 100000) 3 (single_env 1 1 1 0)).
  - exact exact_diff_shape_contract.
  - apply single_env_shapes.
  - exact optimum_returns.
Defined.

Lemma full_batch_printed_lines_witness :
  let e := single_env 20 0 1 0 in
  NNFeatures.stdout (@epoch_end exact_diff seeded_sampler (1 / 100) 150 e)
  = NNFeatures.stdout e
    ++ map (fun j =>
              line_of (@epoch_end exact_diff seeded_sampler (1 / 100) j e))
           (printing_epochs (NNFeatures.epoch e) 150).
Proof.
  apply (@full_batch_printed_lines exact_diff seeded_sampler (1 / 100)
           (single_env 20 0 1 0) 150).
  - exact exact_diff_shape_contract.
  - apply single_env_shapes.
Defined.

Lemma stationary_start_returns_at_once_witness :
  exists r,
    @NNFeatures.fit_full_batch exact_diff seeded_sampler (1 / 100)
      (1 / 100000) 1 (single_env 1 1 1 0) = Some r /\
    NNFeatures.W r = [[1]] /\ NNFeatures.b r = [0] /\
    NNFeatures.epoch r = 0%nat /\
    NNFeatures.loss_val r = NNFeatures.loss [[1]] [0] [[1]] [[1]].
Proof.
  apply (@stationary_start_returns_at_once exact_diff seeded_sampler
           (1 / 100) (1 / 100000) 0 (single_env 1 1 1 0)).
  - lra.
  - apply single_env_shapes.
  - cbn [NNFeatures.W NNFeatures.b NNFeatures.X NNFeatures.y single_env].
    rewrite exact_grad01_single. cbn [zeros_like zeros_like1 map].
    f_equal; repeat f_equal; ring.
Defined.

Lemma full_batch_keeps_shapes_witness :
  (forall k,
      regression_shapes
        (@epoch_start exact_diff seeded_sampler (1 / 100) k
           (single_env 20 0 1 0))) /\
  (forall fuel r,
      @NNFeatures.fit_full_batch exact_diff seeded_sampler (1 / 100)
        (1 / 100000) fuel (single_env 20 0 1 0) = Some r ->
      regression_shapes r).
Proof.
  apply (@full_batch_keeps_shapes exact_diff seeded_sampler (1 / 100)
           (1 / 100000) (single_env 20 0 1 0)).
  - exact exact_diff_shape_contract.
  - apply single_env_shapes.
Defined.

Lemma minibatch_epoch_losses_witness :
  let e := single_env 20 0 1 0 in
  let batches :=
    @NNFeatures.batches_of (@NNFeatures.epoch_indices seeded_sampler 16 100 e)
      100 in
  let losses :=
    @batch_losses exact_diff (1 / 1000) 16 [[20]] [[0]] batches ([[1]], [0]) in
  let e' :=
    @NNFeatures.minibatch_body exact_diff seeded_sampler (1 / 1000) 16 100 e in
  length losses = 100%nat /\
  NNFeatures.minibatch_loss e' = Jnp.vsum losses /\
  NNFeatures.loss_val e' = last losses 0 /\
  NNFeatures.stdout e'
  = [{| NNFeatures.ln_epoch := 0; 
        NNFeatures.ln_loss := Jnp.vsum losses / INR 100;
        NNFeatures.ln_W := Jnp.flatten (NNFeatures.W e');
        NNFeatures.ln_b := nth 0 (NNFeatures.b e') 0 |}].
Proof.
  apply (@minibatch_epoch_losses exact_diff seeded_sampler (1 / 1000) 16 99
           (single_env 20 0 1 0)).
  - exact seeded_sampler_contract.
  - exact exact_diff_shape_contract.
  - apply single_env_shapes.
  - cbn. lia.
Defined.

Lemma minibatch_keeps_shapes_witness :
  let e := single_env 20 0 1 0 in
  let e' :=
    @NNFeatures.minibatch_body exact_diff seeded_sampler (1 / 1000) 16 100 e in
  (NNFeatures.X e' = [[20]] /\ NNFeatures.y e' = [[0]] /\
   regression_shapes e') /\
  (forall fuel r,
      @NNFeatures.fit_minibatch exact_diff seeded_sampler (1 / 1000) 16 100
        (1 / 100000) fuel e = Some r ->
      NNFeatures.X r = [[20]] /\ NNFeatures.y r = [[0]] /\
      regression_shapes r).
Proof.
  apply (@minibatch_keeps_shapes exact_diff seeded_sampler (1 / 1000) 16 99
           (1 / 100000) (single_env 20 0 1 0)).
  - exact exact_diff_shape_contract.
  - apply single_env_shapes.
Defined.

Lemma coefficient_p_values_errors_witness :
  @NNFeatures.coefficient_p_values stats_signs 1000 [[1]; [2]] [3] 250
    [[1; 1]] = Raised ShapeError /\
  @NNFeatures.coefficient_p_values stats_signs 1 [] [3] 250 [[1; 1]]
  = Raised IndexError /\
  @NNFeatures.coefficient_p_values stats_signs 1 [[1]] [3] 250 [[1; 1]]
  = @NNFeatures.coefficient_p_values stats_signs 1 [[1]; [1]] [3] 250
      [[1; 1]].
Proof.
  split; [| split].
  - apply (proj1 (@coefficient_p_values_errors stats_signs 1000 [[1]; [2]]
                    [3] 250 [[1; 1]])).
    cbn. lia.
  - apply (proj1 (proj2 (@coefficient_p_values_errors stats_signs 1 []
                           [3] 250 [[1; 1]]))).
    + reflexivity.
    + right. left. reflexivity.
  - apply (proj1 (proj2 (proj2 (@coefficient_p_values_errors stats_signs 1
                                  [[1]] [3] 250 [[1; 1]]))) 3 [] 1 []);
      reflexivity.
Defined.

Lemma loss_at_generating_parameters_witness :
  exists X y,
    @NNData.make_data seeded_sampler constant_gaussian 1000
    = Returned (@PRNGKey seeded_sampler 2, X, y) /\
    length X = 1000%nat /\ length y = 1000%nat /\
    NNFeatures.loss [[-11]; [12]] [3] X y
    = 9 * Jnp.mean (Jnp.msquare
                      (@NNData.noise seeded_sampler constant_gaussian 1000)).
Proof.
  apply (@loss_at_generating_parameters seeded_sampler constant_gaussian 1000).
  exact constant_gaussian_contract.
Defined.

Lemma regression_cell_shape_safe_witness :
  exists e0,
    @NNData.regression_start seeded_sampler constant_gaussian 1000
    = Returned e0 /\
    regression_shapes
      (@epoch_end exact_diff seeded_sampler (1 / 100) 7
         (NNFeatures.restart e0)) /\
    exists p,
      @NNFeatures.p_values_cell seeded_sampler stats_identity
        (@epoch_end exact_diff seeded_sampler (1 / 100) 7
           (NNFeatures.restart e0)) = Returned p /\
      length p = 3%nat.
Proof.
  apply (@regression_cell_shape_safe exact_diff seeded_sampler
           constant_gaussian stats_identity 7).
  - exact constant_gaussian_contract.
  - exact exact_diff_shape_contract.
  - exact stats_identity_contract.
Defined.

Lemma full_batch_epoch_is_descent_step_witness :
  let e := single_env 2 5 1 0 in
  let r := Jnp.map2 (fun x t => Jnp.vdot x [1] + 0 - t) [[2]] [5] in
  let e' :=
    @NNFeatures.full_batch_body exact_diff seeded_sampler (1 / 100) e in
  NNFeatures.W e'
  = column (map (fun j => nth j [1] 0
                          - 1 / 100
                            * (2 / INR 1 * Jnp.vdot (Jnp.col j [[2]]) r))
                (seq 0 1)) /\
  NNFeatures.b e' = [0 - 1 / 100 * (2 / INR 1 * Jnp.vsum r)] /\
  NNFeatures.loss_val e' = Jnp.vsum (map (fun v => v ^ 2) r) / INR 1.
Proof.
  apply (@full_batch_epoch_is_descent_step seeded_sampler (1 / 100)
           (single_env 2 5 1 0) [1] 0 [5]); try reflexivity.
  split; [discriminate | split; [discriminate | split; [reflexivity |]]].
  repeat constructor.
Defined.

Lemma full_batch_fixed_points_witness :
  let e := single_env 1 1 1 0 in
  let r := Jnp.map2 (fun x t => Jnp.vdot x [1] + 0 - t) [[1]] [1] in
  let e' :=
    @NNFeatures.full_batch_body exact_diff seeded_sampler (1 / 100) e in
  (NNFeatures.W e' = [[1]] /\ NNFeatures.b e' = [0]) <->
  ((forall j, (j < 1)%nat -> Jnp.vdot (Jnp.col j [[1]]) r = 0) /\
   Jnp.vsum r = 0).
Proof.
  apply (@full_batch_fixed_points seeded_sampler (1 / 100)
           (single_env 1 1 1 0) [1] 0 [1]); try reflexivity.
  - split; [discriminate | split; [discriminate | split; [reflexivity |]]].
    repeat constructor.
  - lra.
Defined.

Lemma minibatch_update_divides_twice_witness :
  let idx := [1%nat; 0%nat; 1%nat] in
  let r := Jnp.map2 (fun x t => Jnp.vdot x [1] + 0 - t)
             (Jnp.take_rows [[2]; [3]] idx)
             (map (fun i => nth i [5; 7] 0) idx) in
  @sgd_update exact_diff (1 / 1000) 3 [[2]; [3]] (column [5; 7])
    (column [1], [0]) idx
  = (column (map (fun j => nth j [1] 0
                           - 1 / 1000 * 2 / (INR 3 * INR 3)
                             * Jnp.vdot
                                 (Jnp.col j (Jnp.take_rows [[2]; [3]] idx)) r)
                 (seq 0 1)),
     [0 - 1 / 1000 * 2 / (INR 3 * INR 3) * Jnp.vsum r]).
Proof.
  apply (minibatch_update_divides_twice (1 / 1000) 3 [[2]; [3]] [1] 0 [5; 7]
           [1%nat; 0%nat; 1%nat]).
  - split; [discriminate | split; [discriminate | split; [reflexivity |]]].
    repeat constructor.
  - reflexivity.
  - lia.
  - repeat constructor.
Defined.
